(** * The shared API credit manager: usage ledger and rate limiter

    A shallow embedding of [src/core/credit_manager.py] (class
    [CreditManager]) and the properties of its three public operations,
    [track_request_start], [track_usage] and [get_usage_stats].

    Conventions of the embedding.
    - Python [int] is [Z]; the Unix timestamps returned by [time.time()] and
      the monetary amounts are exact rationals ([Q]), so the rounding of
      binary floating point is abstracted away while every comparison and
      every arithmetic expression keeps the shape it has in the source.
    - The methods run in a state-and-exception monad over a [Machine]: the
      attributes of the singleton, the heap holding the dict object that
      [self.component_usage] refers to, the wall clock, the persistence file
      and a trace of the externally visible effects (sleeps, snapshot
      writes).
    - [with self._usage_lock] is a re-entrant lock around each method body;
      the embedding is sequential, one method call at a time, which is what
      the lock enforces.  Calls to [logger] are not modelled. *)

From Stdlib Require Import ZArith QArith Lia Lqa.
From stdpp Require Import base gmap strings list.

Local Open Scope Z_scope.

(** ** Values *)

(** [{'calls': 0, 'tokens': 0, 'errors': 0}]: the per-component counters.
    The three keys are fixed at construction and never added or removed. *)
Record ComponentStats := mkComponentStats {
  calls : Z;
  tokens : Z;
  errors : Z
}.

(** The dict object behind [self.component_usage]. *)
Abbreviation Dict := (gmap string ComponentStats).

(** Object identities (addresses of dict objects on the Python heap). *)
Definition loc := positive.

(** The instance attributes that the methods read and write.  The limits and
    the prices are assigned once in [__init__] and never reassigned; they
    are the constants below. *)
Record CreditManager := mkCreditManager {
  total_requests : Z;
  total_tokens : Z;
  total_input_tokens : Z;
  total_output_tokens : Z;
  call_times : list Q;
  token_times : list (Q * Z);
  component_usage : loc
}.

Definition rpm_limit : Z := 15.
Definition tpm_limit : Z := 1000000.
Definition cost_per_million_input : Q := 0.075%Q.
Definition cost_per_million_output : Q := 0.30%Q.

(** The dict returned by [get_usage_stats].  ['component_breakdown'] holds
    whatever [self.component_usage] holds: a reference. *)
Record Stats := mkStats {
  stats_total_requests : Z;
  stats_total_tokens : Z;
  estimated_cost : Q;
  component_breakdown : loc;
  current_rpm : nat
}.

(** What [json.dump] writes: the timestamp, the stats, and the contents of
    the referenced component table at the time of the write. *)
Record Snapshot := mkSnapshot {
  snap_timestamp : Q;
  snap_stats : Stats;
  snap_components : option Dict
}.

(** Externally visible effects, in chronological order. *)
Inductive Event :=
  | Slept (duration : Q)
  | SaveUsage (written : bool).

Inductive exn := ValueError | IndexError | OSError.

Inductive result (A : Type) :=
  | Ok (a : A)
  | Raise (e : exn).
Arguments Ok {A} a.
Arguments Raise {A} e.

(** [x < y] on timestamps. *)
Definition Qltb (x y : Q) : bool :=
  match (x ?= y)%Q with Lt => true | _ => false end.

(** ** The machine *)

(** [clock] is the wall clock; every call of [time.time()] first lets the
    next element of [jitter] elapse (nothing once the list is used up), so
    any finite schedule of clock readings can be scripted.  [disk_ok] tells
    whether opening the persistence file for writing succeeds. *)
Record Machine := mkMachine {
  self : CreditManager;
  heap : gmap loc Dict;
  clock : Q;
  jitter : list Q;
  disk_ok : bool;
  persistence_file : option Snapshot;
  trace : list Event
}.

Definition M (A : Type) : Type := Machine → result A * Machine.

#[export] Instance M_ret : MRet M := λ A a m, (Ok a, m).

(** An exception stops the rest of the block; the mutations done before it
    stay. *)
#[export] Instance M_bind : MBind M := λ A B f c m,
  match c m with
  | (Ok a, m') => f a m'
  | (Raise e, m') => (Raise e, m')
  end.

Definition raise {A} (e : exn) : M A := λ m, (Raise e, m).

(** [try: body except Exception: handler] *)
Definition try_except {A} (body : M A) (handler : M A) : M A := λ m,
  match body m with
  | (Ok a, m') => (Ok a, m')
  | (Raise _, m') => handler m'
  end.

Definition get_self : M CreditManager := λ m, (Ok (self m), m).

Definition get_heap : M (gmap loc Dict) := λ m, (Ok (heap m), m).

Definition with_self (f : CreditManager → CreditManager) (m : Machine) : Machine :=
  mkMachine (f (self m)) (heap m) (clock m) (jitter m) (disk_ok m)
            (persistence_file m) (trace m).

Definition with_heap (f : gmap loc Dict → gmap loc Dict) (m : Machine) : Machine :=
  mkMachine (self m) (f (heap m)) (clock m) (jitter m) (disk_ok m)
            (persistence_file m) (trace m).

Definition modify_self (f : CreditManager → CreditManager) : M unit :=
  λ m, (Ok tt, with_self f m).

Definition modify_heap (f : gmap loc Dict → gmap loc Dict) : M unit :=
  λ m, (Ok tt, with_heap f m).

Definition emit (e : Event) : M unit := λ m,
  (Ok tt, mkMachine (self m) (heap m) (clock m) (jitter m) (disk_ok m)
                    (persistence_file m) (trace m ++ [e])).

(** The clock after the next scheduled delay. *)
Definition tick (m : Machine) : Machine :=
  match jitter m with
  | [] => m
  | j :: js => mkMachine (self m) (heap m) (clock m + j)%Q js (disk_ok m)
                         (persistence_file m) (trace m)
  end.

(** [time.time()] *)
Definition time_time : M Q := λ m, let m' := tick m in (Ok (clock m'), m').

(** [time.sleep(secs)]: [ValueError] on a negative length, otherwise the
    clock moves on by [secs]. *)
Definition time_sleep (secs : Q) : M unit := λ m,
  if Qltb secs 0 then (Raise ValueError, m)
  else (Ok tt, mkMachine (self m) (heap m) (clock m + secs)%Q (jitter m)
                         (disk_ok m) (persistence_file m)
                         (trace m ++ [Slept secs])).

(** [open(self.persistence_file, 'w')] followed by [json.dump]. *)
Definition write_file (data : Snapshot) : M unit := λ m,
  if disk_ok m then
    (Ok tt, mkMachine (self m) (heap m) (clock m) (jitter m) (disk_ok m)
                      (Some data) (trace m))
  else (Raise OSError, m).

(** ** Field updates of the singleton *)

Definition set_call_times (l : list Q) (s : CreditManager) : CreditManager :=
  mkCreditManager (total_requests s) (total_tokens s) (total_input_tokens s)
    (total_output_tokens s) l (token_times s) (component_usage s).

Definition set_token_times (l : list (Q * Z)) (s : CreditManager) : CreditManager :=
  mkCreditManager (total_requests s) (total_tokens s) (total_input_tokens s)
    (total_output_tokens s) (call_times s) l (component_usage s).

Definition set_totals (r t i o : Z) (s : CreditManager) : CreditManager :=
  mkCreditManager r t i o (call_times s) (token_times s) (component_usage s).

(** ** Window helpers *)

(** The comprehension guard [now - t < 60]. *)
Definition young (now t : Q) : bool := Qltb (now - t) 60.

(** [[t for t in call_times if now - t < 60]] *)
Definition prune_calls (now : Q) (l : list Q) : list Q :=
  List.filter (young now) l.

(** [[(t, tokens) for t, tokens in token_times if now - t < 60]] *)
Definition prune_tokens (now : Q) (l : list (Q * Z)) : list (Q * Z) :=
  List.filter (λ e, young now (fst e)) l.

(** [sum(tokens for _, tokens in token_times)] *)
Definition sum_tokens (l : list (Q * Z)) : Z :=
  fold_left (λ acc e, acc + snd e) l 0.

(** [min(t for t, _ in token_times) if token_times else now]: the builtin
    [min] keeps the first smallest item. *)
Definition oldest_time (now : Q) (l : list (Q * Z)) : Q :=
  match l with
  | [] => now
  | e :: rest => fold_left (λ best e', if Qltb (fst e') best then fst e' else best)
                           rest (fst e)
  end.

(** [l[0]] *)
Definition index0 (l : list Q) : M Q :=
  match l with
  | [] => raise IndexError
  | t :: _ => mret t
  end.

(** ** The methods *)

(** [check_rate_limit] *)
Definition check_rate_limit : M bool :=
  now ← time_time;
  modify_self (λ s, set_call_times (prune_calls now (call_times s)) s);;
  s ← get_self;
  now ← (if rpm_limit <=? Z.of_nat (length (call_times s)) then
           c0 ← index0 (call_times s);
           let wait_time := (60 - (now - c0) + 1)%Q in
           if Qltb 0 wait_time then
             time_sleep wait_time;;
             now' ← time_time;
             modify_self (λ s, set_call_times (prune_calls now' (call_times s)) s);;
             mret now'
           else mret now
         else mret now);
  modify_self (λ s, set_token_times (prune_tokens now (token_times s)) s);;
  s ← get_self;
  let recent_tokens := sum_tokens (token_times s) in
  (if Qle_bool (inject_Z tpm_limit * 0.9) (inject_Z recent_tokens) then
     let oldest := oldest_time now (token_times s) in
     let wait_time := (60 - (now - oldest) + 1)%Q in
     time_sleep wait_time
   else mret tt);;
  mret true.

(** [track_request_start] *)
Definition track_request_start : M unit :=
  check_rate_limit;;
  t ← time_time;
  modify_self (λ s, set_call_times (call_times s ++ [t]) s).

(** [len([t for t in self.call_times if time.time() - t < 60])]: the clock is
    read once per element of the list. *)
Fixpoint count_recent (l : list Q) : M nat :=
  match l with
  | [] => mret O
  | t :: rest =>
      now ← time_time;
      n ← count_recent rest;
      mret (if young now t then S n else n)
  end.

(** [get_usage_stats] *)
Definition get_usage_stats : M Stats :=
  s ← get_self;
  let input_cost := (inject_Z (total_input_tokens s) * cost_per_million_input / 1000000)%Q in
  let output_cost := (inject_Z (total_output_tokens s) * cost_per_million_output / 1000000)%Q in
  rpm ← count_recent (call_times s);
  mret (mkStats (total_requests s) (total_tokens s) (input_cost + output_cost)%Q
                (component_usage s) rpm).

(** [_save_usage]: every exception of the body is caught and logged. *)
Definition _save_usage : M unit :=
  try_except
    (ts ← time_time;
     st ← get_usage_stats;
     h ← get_heap;
     write_file (mkSnapshot ts st (h !! component_breakdown st));;
     emit (SaveUsage true))
    (emit (SaveUsage false)).

(** The two updates of a component's counters. *)
Definition add_call (n : Z) (c : ComponentStats) : ComponentStats :=
  mkComponentStats (calls c + 1) (tokens c + n) (errors c).

Definition add_error (c : ComponentStats) : ComponentStats :=
  mkComponentStats (calls c) (tokens c) (errors c + 1).

(** [if component in self.component_usage: self.component_usage[component][...] += ...].
    The dict object is updated in place, at its address. *)
Definition update_component (component : string)
    (f : ComponentStats → ComponentStats) : M unit :=
  s ← get_self;
  h ← get_heap;
  match h !! component_usage s with
  | Some d =>
      match d !! component with
      | Some c => modify_heap (λ h, <[component_usage s := <[component := f c]> d]> h)
      | None => mret tt
      end
  | None => mret tt
  end.

(** [track_usage] *)
Definition track_usage (input_tokens output_tokens : Z) (component : string)
    (success : bool) : M unit :=
  (if success then
     modify_self (λ s, set_totals (total_requests s + 1)
                                  (total_tokens s + (input_tokens + output_tokens))
                                  (total_input_tokens s + input_tokens)
                                  (total_output_tokens s + output_tokens) s);;
     t ← time_time;
     modify_self (λ s, set_token_times
                         (token_times s ++ [(t, input_tokens + output_tokens)]) s);;
     update_component component (add_call (input_tokens + output_tokens))
   else
     update_component component add_error);;
  s ← get_self;
  if total_requests s mod 10 =? 0 then _save_usage else mret tt.

(** ** A fresh ledger *)

Definition registered : list string :=
  ["collector"; "insight_agent"; "optimizer"; "analyzer"; "dspy"]%string.

Definition zero_stats : ComponentStats := mkComponentStats 0 0 0.

Definition initial_components : Dict :=
  list_to_map (map (λ k, (k, zero_stats)) registered).

(** The machine right after [CreditManager()] ran [__init__] at wall-clock
    time [t0], with the schedule [js] of future clock delays.  The class is
    a singleton ([__new__] hands out one instance and [__init__] runs its
    body once), so there is one ledger and one component table, allocated
    here at address 1; the creation of the log directory is left out. *)
Definition fresh (t0 : Q) (js : list Q) (disk : bool) : Machine :=
  mkMachine (mkCreditManager 0 0 0 0 [] [] 1%positive)
            {[ 1%positive := initial_components ]}
            t0 js disk None [].

(** ** Runs of the public interface *)

Inductive Call :=
  | TrackRequestStart
  | TrackUsage (input_tokens output_tokens : Z) (component : string) (success : bool)
  | GetUsageStats.

Definition perform (c : Call) : M unit :=
  match c with
  | TrackRequestStart => track_request_start
  | TrackUsage i o comp ok => track_usage i o comp ok
  | GetUsageStats => get_usage_stats;; mret tt
  end.

(** The machine after a call, whatever it returned. *)
Definition after {A} (c : M A) (m : Machine) : Machine := snd (c m).

(** A caller issuing the calls one after the other. *)
Fixpoint run (cs : list Call) : M unit :=
  match cs with
  | [] => mret tt
  | c :: rest => perform c;; run rest
  end.

(** ** Notions used in the statements *)

(** The successive values returned by [k] calls of [time.time()]. *)
Fixpoint readings (k : nat) (m : Machine) : list Q :=
  match k with
  | O => []
  | S k' => clock (tick m) :: readings k' (tick m)
  end.

(** The component table reachable from the singleton, if any. *)
Definition components (m : Machine) : option Dict :=
  heap m !! component_usage (self m).

(** What a reader of a previously returned stats value sees when following
    ['component_breakdown'] in the machine [m]. *)
Definition read_breakdown (st : Stats) (m : Machine) : option Dict :=
  heap m !! component_breakdown st.

(** The heap after the in-place update of one component's counters. *)
Definition updated_heap (component : string) (f : ComponentStats → ComponentStats)
    (l : loc) (h : gmap loc Dict) : gmap loc Dict :=
  match h !! l with
  | Some d =>
      match d !! component with
      | Some c => <[l := <[component := f c]> d]> h
      | None => h
      end
  | None => h
  end.

(** Number of [_save_usage] runs recorded in a trace. *)
Definition is_save (e : Event) : bool :=
  match e with SaveUsage _ => true | Slept _ => false end.

Definition saves (tr : list Event) : nat := length (List.filter is_save tr).

Definition Zsum (l : list Z) : Z := foldr Z.add 0 l.

(** The machine after [time.sleep(d)] returned. *)
Definition slept (d : Q) (m : Machine) : Machine :=
  mkMachine (self m) (heap m) (clock m + d)%Q (jitter m) (disk_ok m)
            (persistence_file m) (trace m ++ [Slept d]).

(** The clock never runs backwards: every scheduled delay is non-negative
    (and [time.sleep] lasts at least as long as asked, by [time_sleep]). *)
Definition forward_delay : Q → Prop := λ j, (0 <= j)%Q.

Definition monotone (m : Machine) : Prop := Forall forward_delay (jitter m).

(** No assumption on the clock. *)
Definition any_delay : Q → Prop := λ _, True.

(** The request block of [check_rate_limit] (the statements under
    [# Check RPM]), entered with the first clock reading. *)
Definition rpm_block (now : Q) : M Q :=
  s ← get_self;
  if rpm_limit <=? Z.of_nat (length (call_times s)) then
    c0 ← index0 (call_times s);
    let wait_time := (60 - (now - c0) + 1)%Q in
    if Qltb 0 wait_time then
      time_sleep wait_time;;
      now' ← time_time;
      modify_self (λ s, set_call_times (prune_calls now' (call_times s)) s);;
      mret now'
    else mret now
  else mret now.

(** The token block of [check_rate_limit] (the statements under
    [# Check TPM]). *)
Definition tpm_block (now : Q) : M unit :=
  modify_self (λ s, set_token_times (prune_tokens now (token_times s)) s);;
  s ← get_self;
  let recent_tokens := sum_tokens (token_times s) in
  if Qle_bool (inject_Z tpm_limit * 0.9) (inject_Z recent_tokens) then
    let oldest := oldest_time now (token_times s) in
    let wait_time := (60 - (now - oldest) + 1)%Q in
    time_sleep wait_time
  else mret tt.

(** The value computed by [get_usage_stats] in terms of the attributes. *)
Definition stats_of (m : Machine) : Stats :=
  let s := self m in
  mkStats (total_requests s) (total_tokens s)
    (inject_Z (total_input_tokens s) * cost_per_million_input / 1000000 +
     inject_Z (total_output_tokens s) * cost_per_million_output / 1000000)%Q
    (component_usage s)
    (length (List.filter (λ p, young (snd p) (fst p))
               (combine (call_times s) (readings (length (call_times s)) m)))).

(** The machine after the [if success: ... else: ...] statement, before the
    periodic-save test. *)
Definition recorded (i o : Z) (c : string) (ok : bool) (m : Machine) : Machine :=
  if ok then
    let m1 := with_self (λ s, set_totals (total_requests s + 1)
                                (total_tokens s + (i + o))
                                (total_input_tokens s + i)
                                (total_output_tokens s + o) s) m in
    let m2 := tick m1 in
    let m3 := with_self (λ s, set_token_times
                                (token_times s ++ [(clock m2, i + o)]) s) m2 in
    with_heap (updated_heap c (add_call (i + o)) (component_usage (self m3))) m3
  else
    with_heap (updated_heap c add_error (component_usage (self m))) m.

(** From [m] to [m'] only the outside world moved: the clock ran through
    part of its schedule. *)
Record world_step (m m' : Machine) : Prop := mkWorldStep {
  ws_self : self m' = self m;
  ws_heap : heap m' = heap m;
  ws_disk : disk_ok m' = disk_ok m;
  ws_jitter : ∃ k, jitter m' = drop k (jitter m)
}.

(** What [check_rate_limit] did between [m] and [m']: [now] is the value of
    its variable [now] when it returns and [ds] the lengths of its sleeps. *)
Record checked (m m' : Machine) (now : Q) (ds : list Q) : Prop := mkChecked {
  ck_self : self m' =
    set_token_times (prune_tokens now (token_times (self m)))
      (set_call_times
         (prune_calls now (prune_calls (clock (tick m)) (call_times (self m))))
         (self m));
  ck_heap : heap m' = heap m;
  ck_disk : disk_ok m' = disk_ok m;
  ck_file : persistence_file m' = persistence_file m;
  ck_jitter : ∃ k, jitter m' = drop k (jitter m);
  ck_trace : trace m' = trace m ++ map Slept ds;
  ck_waits : Forall (λ d, (1 < d)%Q) ds;
  ck_rpm :
    (Z.of_nat (length (prune_calls (clock (tick m)) (call_times (self m)))) < rpm_limit
     ∧ now = clock (tick m)) ∨
    (∃ c0 rest,
       prune_calls (clock (tick m)) (call_times (self m)) = c0 :: rest ∧
       (monotone m → (c0 + 61 <= now)%Q));
  ck_clock : monotone m → (clock (tick m) <= now)%Q ∧ (now <= clock m')%Q
}.

(** The machines a program can get to: a fresh ledger, started at any time
    on a clock whose delays all satisfy [P], followed by any calls. *)
Inductive reachable (P : Q → Prop) : Machine → Prop :=
  | reach_fresh t0 js disk : Forall P js → reachable P (fresh t0 js disk)
  | reach_call m c : reachable P m → reachable P (after (perform c) m).

(** One counter of one component, read through the singleton. *)
Definition counter (field : ComponentStats → Z) (k : string) (m : Machine) : option Z :=
  field <$> (components m ≫= (λ d, d !! k)).

(** A successful [track_usage] call for the pair [(i, o)] and component [c]. *)
Definition successful (p : Z * Z * string) : Call :=
  TrackUsage p.1.1 p.1.2 p.2 true.

(** [total_tokens == total_input_tokens + total_output_tokens] *)
Definition token_total_ok (m : Machine) : Prop :=
  total_tokens (self m) = total_input_tokens (self m) + total_output_tokens (self m).

(** The component table keeps the keys it was built with. *)
Definition registry_ok (m : Machine) : Prop :=
  ∃ d, components m = Some d ∧ ∀ k, is_Some (d !! k) ↔ k ∈ registered.

(** The request window never holds more than [rpm_limit] events. *)
Definition window_bounded (m : Machine) : Prop :=
  monotone m ∧ Z.of_nat (length (call_times (self m))) ≤ rpm_limit.

(** The ledger after fifteen admissions at time 0 on a clock standing still. *)
Definition full_window : Machine :=
  after (run (replicate 15 TrackRequestStart)) (fresh 0 [] true).

(** ** Further notions: normal forms, histories, the process *)

(** [tpm_block] as a function on machines. *)
Definition token_checked (now : Q) (m : Machine) : Machine :=
  let m1 := with_self (λ s, set_token_times (prune_tokens now (token_times s)) s) m in
  if Qle_bool (inject_Z tpm_limit * 0.9)
              (inject_Z (sum_tokens (token_times (self m1)))) then
    slept (60 - (now - oldest_time now (token_times (self m1))) + 1) m1
  else m1.

(** [rpm_block] as a function on machines: the value of [now] and the
    machine it leaves. *)
Definition request_checked (now : Q) (m : Machine) : Q * Machine :=
  if rpm_limit <=? Z.of_nat (length (call_times (self m))) then
    match call_times (self m) with
    | [] => (now, m)
    | c0 :: _ =>
        if Qltb 0 (60 - (now - c0) + 1) then
          let m1 := tick (slept (60 - (now - c0) + 1) m) in
          (clock m1,
           with_self (λ s, set_call_times (prune_calls (clock m1) (call_times s)) s) m1)
        else (now, m)
    end
  else (now, m).

(** [check_rate_limit] as a function on machines. *)
Definition rate_checked (m : Machine) : Machine :=
  let m0 := with_self (λ s, set_call_times (prune_calls (clock (tick m)) (call_times s)) s)
                      (tick m) in
  token_checked (fst (request_checked (clock (tick m)) m0))
                (snd (request_checked (clock (tick m)) m0)).

(** [track_request_start] as a function on machines. *)
Definition admitted (m : Machine) : Machine :=
  let m1 := tick (rate_checked m) in
  with_self (λ s, set_call_times (call_times s ++ [clock m1]) s) m1.

(** [_save_usage] as a function on machines. *)
Definition saved (m : Machine) : Machine :=
  let m0 := tick m in
  let m1 := Nat.iter (length (call_times (self m0))) tick m0 in
  if disk_ok m1 then
    mkMachine (self m1) (heap m1) (clock m1) (jitter m1) (disk_ok m1)
      (Some (mkSnapshot (clock m0) (stats_of m0)
                        (heap m1 !! component_breakdown (stats_of m0))))
      (trace m1 ++ [SaveUsage true])
  else
    mkMachine (self m1) (heap m1) (clock m1) (jitter m1) (disk_ok m1)
      (persistence_file m1) (trace m1 ++ [SaveUsage false]).

(** Oldest first: every element is at most the ones after it. *)
Fixpoint ascending (l : list Q) : Prop :=
  match l with
  | [] => True
  | t :: rest => Forall (λ u, (t <= u)%Q) rest ∧ ascending rest
  end.

(** Both windows are in time order and hold no timestamp from the future. *)
Record timeline_ok (m : Machine) : Prop := mkTimeline {
  tl_clock : monotone m;
  tl_calls : ascending (call_times (self m));
  tl_calls_past : Forall (λ t, (t <= clock m)%Q) (call_times (self m));
  tl_tokens : ascending (map fst (token_times (self m)));
  tl_tokens_past : Forall (λ e, (fst e <= clock m)%Q) (token_times (self m))
}.

(** The first clock reading of [check_rate_limit] and what both windows
    hold after its first prune. *)
Definition entry_time (m : Machine) : Q := clock (tick m).

Definition recent_calls (m : Machine) : list Q :=
  prune_calls (entry_time m) (call_times (self m)).

Definition recent_tokens (m : Machine) : list (Q * Z) :=
  prune_tokens (entry_time m) (token_times (self m)).

(** A ledger that recorded 900000 tokens at time 0. *)
Definition heavy_minute : Machine :=
  after (track_usage 900000 0 "collector" true) (fresh 0 [] true).

(** The arguments of the [track_usage] calls of a run that had
    [success=True], in order, and the components of those that had
    [success=False]. *)
Fixpoint recorded_successes (cs : list Call) : list (Z * Z * string) :=
  match cs with
  | [] => []
  | TrackUsage i o k true :: rest => (i, o, k) :: recorded_successes rest
  | _ :: rest => recorded_successes rest
  end.

Fixpoint recorded_failures (cs : list Call) : list string :=
  match cs with
  | [] => []
  | TrackUsage _ _ k false :: rest => k :: recorded_failures rest
  | _ :: rest => recorded_failures rest
  end.

(** The records made under one component name. *)
Definition for_component (k : string) (ps : list (Z * Z * string)) : list (Z * Z * string) :=
  List.filter (λ p, bool_decide (p.2 = k)) ps.

Definition is_admission (c : Call) : bool :=
  match c with TrackRequestStart => true | _ => false end.

(** The timestamps that the admissions of a run append to [call_times], in
    order: the history of admissions, which the ledger itself forgets when
    it prunes. *)
Fixpoint admission_times (cs : list Call) (m : Machine) : list Q :=
  match cs with
  | [] => []
  | c :: rest =>
      (if is_admission c
       then option_list (last (call_times (self (after (perform c) m))))
       else []) ++
      admission_times rest (after (perform c) m)
  end.

(** Any sixteen consecutive timestamps span at least sixty seconds. *)
Definition spaced (h : list Q) : Prop :=
  ∀ i a b, h !! i = Some a → h !! (i + 15)%nat = Some b → (a + 60 <= b)%Q.

(** The ledger [m] against the history [h] of its admissions: the request
    window is what is left of the history, and what it dropped is at least
    sixty seconds old. *)
Record ledger_of_history (m : Machine) (h : list Q) : Prop := mkLedgerOfHistory {
  lh_timeline : timeline_ok m;
  lh_bounded : window_bounded m;
  lh_suffix : ∃ old, h = old ++ call_times (self m) ∧
                     Forall (λ t, (t + 60 <= clock m)%Q) old;
  lh_spaced : spaced h
}.

(** The part of the machine that the accounting works on: everything but
    the disk, the file and the trace. *)
Definition ledger_part (m : Machine) : Machine :=
  mkMachine (self m) (heap m) (clock m) (jitter m) true None [].

(** Two machines with the same ledger, clock and clock schedule. *)
Definition same_ledger (m1 m2 : Machine) : Prop := ledger_part m1 = ledger_part m2.










(** Unfolds the monad operations and the primitive actions. *)
Ltac unfold_M :=
  unfold mbind, M_bind, mret, M_ret, get_self, get_heap, modify_self,
    modify_heap, emit, raise, time_time in *.

(** ** Basic facts about the monad and the clock *)

Lemma world_step_refl m : world_step m m.
Proof. split; try done. by exists O. Qed.

Lemma world_step_trans m1 m2 m3 :
  world_step m1 m2 → world_step m2 m3 → world_step m1 m3.
Proof.
  intros [S1 H1 D1 [k1 J1]] [S2 H2 D2 [k2 J2]].
  split; try congruence.
  exists (k1 + k2)%nat. by rewrite J2, J1, drop_drop.
Qed.

Lemma tick_world_step m : world_step m (tick m).
Proof.
  unfold tick. destruct (jitter m) as [|j js] eqn:E.
  - apply world_step_refl.
  - split; try done. exists 1%nat. simpl. by rewrite E.
Qed.

Lemma tick_trace m : trace (tick m) = trace m.
Proof. unfold tick. by destruct (jitter m). Qed.

Lemma tick_file m : persistence_file (tick m) = persistence_file m.
Proof. unfold tick. by destruct (jitter m). Qed.

Lemma Qltb_lt x y : Qltb x y = true ↔ (x < y)%Q.
Proof.
  unfold Qltb. rewrite Qlt_alt. destruct (x ?= y)%Q; split; congruence.
Qed.

Lemma Qltb_ge x y : Qltb x y = false ↔ (y <= x)%Q.
Proof.
  rewrite <- not_true_iff_false, Qltb_lt. split.
  - apply Qnot_lt_le.
  - apply Qle_not_lt.
Qed.

Lemma young_lt now t : young now t = true ↔ (now - t < 60)%Q.
Proof. apply Qltb_lt. Qed.

Lemma young_ge now t : young now t = false ↔ (60 <= now - t)%Q.
Proof. apply Qltb_ge. Qed.

(** ** [get_usage_stats] and [_save_usage] leave the ledger alone *)

Lemma count_recent_spec l : ∀ m,
  count_recent l m =
    (Ok (length (List.filter (λ p, young (snd p) (fst p))
                             (combine l (readings (length l) m)))),
     Nat.iter (length l) tick m).
Proof.
  induction l as [|t l IH]; intros m; [done|].
  change (length (t :: l)) with (S (length l)).
  rewrite Nat.iter_succ_r.
  simpl count_recent. unfold_M. rewrite IH. simpl.
  by destruct (young (clock (tick m)) t).
Qed.

Lemma iter_tick_world_step k : ∀ m, world_step m (Nat.iter k tick m).
Proof.
  induction k as [|k IH]; intros m; [apply world_step_refl|].
  rewrite Nat.iter_succ_r.
  eapply world_step_trans; [apply tick_world_step | apply IH].
Qed.

Lemma iter_tick_trace k : ∀ m, trace (Nat.iter k tick m) = trace m.
Proof.
  induction k as [|k IH]; intros m; [done|].
  by rewrite Nat.iter_succ_r, IH, tick_trace.
Qed.

Lemma get_usage_stats_spec m :
  get_usage_stats m =
    (Ok (stats_of m), Nat.iter (length (call_times (self m))) tick m).
Proof.
  unfold get_usage_stats. unfold_M. by rewrite count_recent_spec.
Qed.

Lemma save_usage_spec m :
  ∃ m', _save_usage m = (Ok tt, m') ∧ world_step m m' ∧
        trace m' = trace m ++ [SaveUsage (disk_ok m)].
Proof.
  unfold _save_usage, try_except. unfold_M.
  rewrite get_usage_stats_spec. unfold write_file.
  set (m1 := Nat.iter _ tick (tick m)).
  assert (W : world_step m m1).
  { eapply world_step_trans; [apply tick_world_step | apply iter_tick_world_step]. }
  assert (T : trace m1 = trace m).
  { unfold m1. by rewrite iter_tick_trace, tick_trace. }
  destruct W as [S1 H1 D1 J1].
  destruct (disk_ok m1) eqn:D; rewrite <- D1; eexists; (split; [reflexivity|]);
    simpl; rewrite T.
  all: split; [split; simpl; congruence || done | done].
Qed.

(** ** [track_usage] step by step *)

Lemma update_component_spec c f m :
  update_component c f m =
    (Ok tt, with_heap (updated_heap c f (component_usage (self m))) m).
Proof.
  unfold update_component, updated_heap, with_heap. unfold_M.
  destruct (heap m !! component_usage (self m)) as [d|]; [|by destruct m].
  destruct (d !! c); [done | by destruct m].
Qed.

Lemma track_usage_unfold i o c ok m :
  track_usage i o c ok m =
    let m' := recorded i o c ok m in
    if total_requests (self m') mod 10 =? 0 then _save_usage m' else (Ok tt, m').
Proof.
  unfold track_usage, recorded. unfold_M.
  destruct ok; rewrite update_component_spec; cbv beta iota zeta;
    match goal with |- (if ?b then _ else _) _ = _ => destruct b end;
    reflexivity.
Qed.

Lemma tick_with_self f m : tick (with_self f m) = with_self f (tick m).
Proof. by destruct m as [s h c [|j js] d p t]. Qed.

Lemma tick_self m : self (tick m) = self m.
Proof. apply tick_world_step. Qed.

Lemma recorded_self_success i o c m :
  self (recorded i o c true m) =
    mkCreditManager (total_requests (self m) + 1)
      (total_tokens (self m) + (i + o))
      (total_input_tokens (self m) + i)
      (total_output_tokens (self m) + o)
      (call_times (self m))
      (token_times (self m) ++ [(clock (tick m), i + o)])
      (component_usage (self m)).
Proof.
  unfold recorded. simpl. rewrite !tick_with_self. simpl.
  by rewrite !tick_self.
Qed.

Lemma recorded_heap_success i o c m :
  heap (recorded i o c true m) =
    updated_heap c (add_call (i + o)) (component_usage (self m)) (heap m).
Proof.
  unfold recorded. simpl. rewrite !tick_with_self. simpl.
  rewrite !tick_self. f_equal. apply tick_world_step.
Qed.

Lemma recorded_heap_failure i o c m :
  heap (recorded i o c false m) =
    updated_heap c add_error (component_usage (self m)) (heap m).
Proof. done. Qed.

Lemma recorded_trace i o c ok m : trace (recorded i o c ok m) = trace m.
Proof.
  unfold recorded. destruct ok; [|done]. cbn [trace with_heap with_self].
  by rewrite tick_trace.
Qed.

Lemma recorded_disk i o c ok m : disk_ok (recorded i o c ok m) = disk_ok m.
Proof.
  unfold recorded. destruct ok; [|done]. cbn [disk_ok with_heap with_self].
  by rewrite (ws_disk _ _ (tick_world_step _)).
Qed.

Lemma recorded_jitter i o c ok m :
  ∃ k, jitter (recorded i o c ok m) = drop k (jitter m).
Proof.
  unfold recorded. destruct ok; [|by exists O]. cbn [jitter with_heap with_self].
  match goal with
  | |- context [tick ?x] =>
      destruct (ws_jitter _ _ (tick_world_step x)) as [k E]; exists k; by rewrite E
  end.
Qed.

(** [track_usage] always returns normally; after the bookkeeping of
    [recorded] only the outside world moves, and [_save_usage] ran exactly
    when the updated request total is a multiple of ten. *)
Lemma track_usage_spec i o c ok m :
  ∃ m', track_usage i o c ok m = (Ok tt, m') ∧
        world_step (recorded i o c ok m) m' ∧
        trace m' = trace m ++
          (if total_requests (self (recorded i o c ok m)) mod 10 =? 0
           then [SaveUsage (disk_ok m)] else []).
Proof.
  rewrite track_usage_unfold. cbv zeta.
  destruct (_ =? 0).
  - destruct (save_usage_spec (recorded i o c ok m)) as (m' & E & W & T).
    exists m'. by rewrite recorded_trace, recorded_disk in T.
  - eexists; split; [reflexivity|]. split; [apply world_step_refl|].
    by rewrite recorded_trace, app_nil_r.
Qed.

(** ** [check_rate_limit] step by step *)

Lemma check_rate_limit_blocks :
  check_rate_limit =
    (now ← time_time;
     modify_self (λ s, set_call_times (prune_calls now (call_times s)) s);;
     now ← rpm_block now;
     tpm_block now;;
     mret true).
Proof. reflexivity. Qed.

Lemma time_sleep_ok d m : (0 <= d)%Q → time_sleep d m = (Ok tt, slept d m).
Proof.
  intros H. unfold time_sleep. apply Qltb_ge in H. by rewrite H.
Qed.

Lemma rpm_block_spec now m :
  let l := call_times (self m) in
  (rpm_block now m = (Ok now, m) ∧
   ((Z.of_nat (length l) < rpm_limit) ∨
    ∃ c0 rest, l = c0 :: rest ∧ (60 - (now - c0) + 1 <= 0)%Q)) ∨
  (∃ c0 rest, l = c0 :: rest ∧ rpm_limit ≤ Z.of_nat (length l) ∧
     let wait := (60 - (now - c0) + 1)%Q in
     let m1 := tick (slept wait m) in
     (0 < wait)%Q ∧
     rpm_block now m =
       (Ok (clock m1),
        with_self (λ s, set_call_times (prune_calls (clock m1) (call_times s)) s) m1)).
Proof.
  intros l. unfold rpm_block. unfold_M. fold l.
  destruct (Z.leb_spec rpm_limit (Z.of_nat (length l))) as [Hge|Hlt].
  2:{ left. split; [done|]. by left. }
  destruct l as [|c0 rest] eqn:El; [unfold rpm_limit in Hge; simpl in Hge; lia|].
  simpl index0. unfold_M.
  destruct (Qltb 0 (60 - (now - c0) + 1)) eqn:W.
  - right. exists c0, rest. split; [done|]. split; [done|].
    apply Qltb_lt in W. split; [done|].
    by rewrite time_sleep_ok by (by apply Qlt_le_weak).
  - left. split; [done|]. right. exists c0, rest. split; [done|].
    by apply Qltb_ge.
Qed.

Lemma prune_calls_young now l :
  Forall (λ t, (now - t < 60)%Q) (prune_calls now l).
Proof.
  apply List.Forall_forall. intros t Ht.
  apply List.filter_In in Ht as [_ Ht]. by apply young_lt.
Qed.

Lemma prune_tokens_young now l :
  Forall (λ e, (now - fst e < 60)%Q) (prune_tokens now l).
Proof.
  apply List.Forall_forall. intros t Ht.
  apply List.filter_In in Ht as [_ Ht]. by apply young_lt.
Qed.

Lemma oldest_time_fold (rest : list (Q * Z)) : ∀ best,
  let r := fold_left (λ best e', if Qltb (fst e') best then fst e' else best)
                     rest best in
  r = best ∨ In r (map fst rest).
Proof.
  induction rest as [|e rest IH]; intros best; simpl; [by left|].
  destruct (IH (if Qltb (fst e) best then fst e else best)) as [H|H].
  - rewrite H. destruct (Qltb (fst e) best); [right; by left | by left].
  - right. by right.
Qed.

Lemma oldest_time_in now l :
  (l = [] ∧ oldest_time now l = now) ∨ In (oldest_time now l) (map fst l).
Proof.
  destruct l as [|e rest]; [by left|]. right. simpl.
  destruct (oldest_time_fold rest (fst e)) as [H|H]; [by left | by right].
Qed.

Lemma oldest_time_young now l :
  Forall (λ e, (now - fst e < 60)%Q) l → (now - oldest_time now l < 60)%Q.
Proof.
  intros Hl. destruct (oldest_time_in now l) as [[-> ->]|H].
  - lra.
  - apply List.in_map_iff in H as (e & <- & He).
    by apply (proj1 (List.Forall_forall _ _) Hl).
Qed.

Lemma tpm_block_spec now m :
  let m1 := with_self (λ s, set_token_times (prune_tokens now (token_times s)) s) m in
  tpm_block now m = (Ok tt, m1) ∨
  ∃ wait, (1 < wait)%Q ∧ tpm_block now m = (Ok tt, slept wait m1).
Proof.
  intros m1. unfold tpm_block. unfold_M. fold m1.
  destruct (Qle_bool _ _); [|by left].
  right. eexists; split; [|apply time_sleep_ok].
  - pose proof (oldest_time_young now _ (prune_tokens_young now (token_times (self m)))).
    simpl. lra.
  - pose proof (oldest_time_young now _ (prune_tokens_young now (token_times (self m)))).
    simpl. lra.
Qed.

Lemma monotone_tick m :
  monotone m → monotone (tick m) ∧ (clock m <= clock (tick m))%Q.
Proof.
  unfold monotone, tick. intros H.
  destruct (jitter m) as [|j js] eqn:E.
  - rewrite E. split; [done | lra].
  - simpl. inversion H as [|? ? Hj Hjs]; subst. unfold forward_delay in Hj.
    split; [done | lra].
Qed.

Lemma prune_calls_idem now l :
  prune_calls now (prune_calls now l) = prune_calls now l.
Proof.
  unfold prune_calls. induction l as [|t l IH]; [done|].
  simpl. destruct (young now t) eqn:E; [|done].
  simpl. by rewrite E, IH.
Qed.

Lemma check_rate_limit_spec m :
  ∃ now ds m', check_rate_limit m = (Ok true, m') ∧ checked m m' now ds.
Proof.
  rewrite check_rate_limit_blocks. unfold_M. cbv zeta.
  set (now0 := clock (tick m)).
  set (m0 := with_self _ (tick m)).
  assert (L0 : call_times (self m0) = prune_calls now0 (call_times (self m))).
  { unfold m0. simpl. by rewrite tick_self. }
  destruct (rpm_block_spec now0 m0) as [[E Hcase]|(c0 & rest & El & Hge & Hw & E)];
    rewrite E; clear E.
  - (* no wait *)
    assert (Hlt : Z.of_nat (length (prune_calls now0 (call_times (self m)))) < rpm_limit).
    { destruct Hcase as [H|(c0 & rest & El & Hw)]; [by rewrite <- L0|].
      exfalso. rewrite L0 in El.
      pose proof (prune_calls_young now0 (call_times (self m))) as Hy.
      rewrite El in Hy. inversion Hy; subst. lra. }
    destruct (tpm_block_spec now0 m0) as [E|(w & Hw & E)]; rewrite E; clear E.
    + exists now0, [], (with_self (λ s, set_token_times (prune_tokens now0 (token_times s)) s) m0).
      split; [done|]. split; simpl.
      * rewrite tick_self, prune_calls_idem. done.
      * apply tick_world_step.
      * apply tick_world_step.
      * apply tick_file.
      * apply tick_world_step.
      * by rewrite tick_trace, app_nil_r.
      * done.
      * by left.
      * intros _. fold now0. lra.
    + exists now0, [w], (slept w (with_self (λ s, set_token_times (prune_tokens now0 (token_times s)) s) m0)).
      split; [done|]. split; simpl.
      * rewrite tick_self, prune_calls_idem. done.
      * apply tick_world_step.
      * apply tick_world_step.
      * apply tick_file.
      * apply tick_world_step.
      * by rewrite tick_trace.
      * by constructor.
      * by left.
      * intros _. fold now0. lra.
  - (* the request window is full: sleep, read the clock again, prune again *)
    cbv zeta in Hw.
    set (w := (60 - (now0 - c0) + 1)%Q) in *.
    set (m1 := tick (slept w m0)).
    set (now1 := clock m1).
    set (m2 := with_self _ m1).
    assert (Hmono : monotone m → (c0 + 61 <= now1)%Q ∧ (now0 <= now1)%Q).
    { intros Hm. apply monotone_tick in Hm as [Hm _].
      assert (Hs : monotone (slept w m0)) by exact Hm.
      apply monotone_tick in Hs as [_ Hs]. fold m1 now1 in Hs.
      simpl in Hs. fold now0 in Hs. unfold w in Hs, Hw. split; lra. }
    assert (Hj : ∃ k, jitter m1 = drop k (jitter m)).
    { destruct (ws_jitter _ _ (tick_world_step m)) as [k1 J1].
      destruct (ws_jitter _ _ (tick_world_step (slept w m0))) as [k2 J2].
      exists (k1 + k2)%nat. unfold m1. rewrite J2. simpl. by rewrite J1, drop_drop. }
    assert (Hs : self m2 =
      set_call_times (prune_calls now1 (prune_calls now0 (call_times (self m))))
        (self m)).
    { unfold m2, m1. simpl. rewrite !tick_self. simpl. by rewrite !tick_self. }
    assert (Hh : heap m2 = heap m).
    { unfold m2, m1. simpl. rewrite (ws_heap _ _ (tick_world_step _)). simpl.
      apply tick_world_step. }
    assert (Hd : disk_ok m2 = disk_ok m).
    { unfold m2, m1. simpl. rewrite (ws_disk _ _ (tick_world_step _)). simpl.
      apply tick_world_step. }
    assert (Hf : persistence_file m2 = persistence_file m).
    { unfold m2, m1. simpl. rewrite tick_file. simpl. apply tick_file. }
    assert (Ht : trace m2 = trace m ++ [Slept w]).
    { unfold m2, m1. simpl. rewrite tick_trace. simpl. by rewrite tick_trace. }
    assert (Hj2 : jitter m2 = jitter m1) by done.
    assert (Hc2 : clock m2 = now1) by done.
    assert (Hw1 : (1 < w)%Q).
    { pose proof (prune_calls_young now0 (call_times (self m))) as Hy.
      rewrite <- L0, El in Hy. inversion Hy; subst. unfold w. lra. }
    assert (Hrpm : ∃ c0 rest,
       prune_calls now0 (call_times (self m)) = c0 :: rest ∧
       (monotone m → (c0 + 61 <= now1)%Q)).
    { exists c0, rest. rewrite <- L0. split; [done|]. intros Hm. by apply Hmono. }
    destruct (tpm_block_spec now1 m2) as [E|(w2 & Hw2 & E)]; rewrite E; clear E;
      clearbody m2 now1.
    + exists now1, [w], (with_self (λ s, set_token_times (prune_tokens now1 (token_times s)) s) m2).
      split; [done|]. split; simpl; try done.
      * by rewrite Hs.
      * by rewrite Hj2.
      * by constructor.
      * by right.
      * intros Hm. destruct (Hmono Hm). rewrite Hc2. fold now0. split; lra.
    + exists now1, [w; w2], (slept w2 (with_self (λ s, set_token_times (prune_tokens now1 (token_times s)) s) m2)).
      split; [done|]. split; simpl; try done.
      * by rewrite Hs.
      * by rewrite Hj2.
      * by rewrite Ht, <- app_assoc.
      * by repeat constructor.
      * by right.
      * intros Hm. destruct (Hmono Hm). rewrite Hc2. fold now0. split; lra.
Qed.

(** ** The three operations as steps of the machine *)

Lemma track_request_start_spec m :
  ∃ now ds m1, check_rate_limit m = (Ok true, m1) ∧ checked m m1 now ds ∧
    track_request_start m =
      (Ok tt, with_self (λ s, set_call_times (call_times s ++ [clock (tick m1)]) s)
                        (tick m1)).
Proof.
  destruct (check_rate_limit_spec m) as (now & ds & m1 & E & C).
  exists now, ds, m1. split; [done|]. split; [done|].
  unfold track_request_start. unfold_M. by rewrite E.
Qed.

Lemma track_usage_after i o c ok m :
  track_usage i o c ok m = (Ok tt, after (track_usage i o c ok) m) ∧
  world_step (recorded i o c ok m) (after (track_usage i o c ok) m).
Proof.
  destruct (track_usage_spec i o c ok m) as (m' & E & W & _).
  unfold after. by rewrite E.
Qed.

Lemma get_usage_stats_after m :
  get_usage_stats m = (Ok (stats_of m), after get_usage_stats m) ∧
  world_step m (after get_usage_stats m).
Proof.
  unfold after. rewrite get_usage_stats_spec. split; [done|].
  apply iter_tick_world_step.
Qed.

Lemma perform_ok c m : perform c m = (Ok tt, after (perform c) m).
Proof.
  unfold after. destruct c as [|i o c ok|]; simpl.
  - destruct (track_request_start_spec m) as (? & ? & ? & _ & _ & ->). done.
  - by rewrite (proj1 (track_usage_after i o c ok m)).
  - unfold_M. by rewrite get_usage_stats_spec.
Qed.

Lemma run_cons c cs m : run (c :: cs) m = run cs (after (perform c) m).
Proof. simpl. unfold_M. by rewrite perform_ok. Qed.

Lemma run_ok cs : ∀ m, run cs m = (Ok tt, after (run cs) m).
Proof.
  induction cs as [|c cs IH]; intros m; [done|].
  unfold after at 1. by rewrite run_cons, IH.
Qed.

Lemma after_run_cons c cs m :
  after (run (c :: cs)) m = after (run cs) (after (perform c) m).
Proof. unfold after at 1 2. by rewrite run_cons. Qed.

Lemma reachable_run P cs : ∀ m, reachable P m → reachable P (after (run cs) m).
Proof.
  induction cs as [|c cs IH]; intros m Hm; [done|].
  rewrite after_run_cons. apply IH. by constructor.
Qed.

(** What each operation does to the attributes and to the heap. *)
Lemma perform_self c m :
  self (after (perform c) m) =
    match c with
    | TrackRequestStart =>
        let m1 := after check_rate_limit m in
        set_call_times (call_times (self m1) ++ [clock (tick m1)]) (self m1)
    | TrackUsage i o k ok => self (recorded i o k ok m)
    | GetUsageStats => self m
    end.
Proof.
  destruct c as [|i o k ok|].
  - unfold after at 1. simpl perform.
    destruct (track_request_start_spec m) as (? & ? & m1 & E & _ & ->).
    unfold after. rewrite E. simpl. by rewrite tick_self.
  - simpl perform. apply (track_usage_after i o k ok m).
  - unfold after. simpl perform. unfold_M. rewrite get_usage_stats_spec. simpl.
    apply iter_tick_world_step.
Qed.

Lemma perform_heap c m :
  heap (after (perform c) m) =
    match c with
    | TrackUsage i o k ok => heap (recorded i o k ok m)
    | _ => heap m
    end.
Proof.
  destruct c as [|i o k ok|].
  - unfold after. simpl perform.
    destruct (track_request_start_spec m) as (? & ? & m1 & E & C & ->).
    simpl. rewrite (ws_heap _ _ (tick_world_step _)). apply C.
  - simpl perform. apply (track_usage_after i o k ok m).
  - unfold after. simpl perform. unfold_M. rewrite get_usage_stats_spec. simpl.
    apply iter_tick_world_step.
Qed.

Lemma perform_jitter c m : ∃ k, jitter (after (perform c) m) = drop k (jitter m).
Proof.
  destruct c as [|i o c ok|].
  - unfold after. simpl perform.
    destruct (track_request_start_spec m) as (? & ? & m1 & E & C & ->).
    simpl. destruct (ws_jitter _ _ (tick_world_step m1)) as [k1 ->].
    destruct (ck_jitter _ _ _ _ C) as [k2 ->].
    exists (k2 + k1)%nat. by rewrite drop_drop.
  - simpl perform.
    destruct (ws_jitter _ _ (proj2 (track_usage_after i o c ok m))) as [k1 ->].
    destruct (recorded_jitter i o c ok m) as [k2 ->].
    exists (k2 + k1)%nat. by rewrite drop_drop.
  - unfold after. simpl perform. unfold_M. rewrite get_usage_stats_spec. simpl.
    apply iter_tick_world_step.
Qed.

Lemma check_rate_limit_after m :
  ∃ now ds, check_rate_limit m = (Ok true, after check_rate_limit m) ∧
            checked m (after check_rate_limit m) now ds.
Proof.
  destruct (check_rate_limit_spec m) as (now & ds & m1 & E & C).
  exists now, ds. unfold after. by rewrite E.
Qed.

Lemma perform_component_usage c m :
  component_usage (self (after (perform c) m)) = component_usage (self m).
Proof.
  rewrite perform_self. destruct c as [|i o k ok|]; [| |done].
  - destruct (check_rate_limit_after m) as (now & ds & _ & C).
    cbv zeta. simpl. by rewrite (ck_self _ _ _ _ C).
  - destruct ok; [by rewrite recorded_self_success | done].
Qed.

(** ** The component table *)

Lemma updated_heap_alter c f l (h : gmap loc Dict) :
  updated_heap c f l h = alter (alter f c) l h.
Proof.
  unfold updated_heap. rewrite (alter_alt (alter f c)).
  destruct (h !! l) as [d|] eqn:Hl; [|done].
  rewrite (alter_alt f). destruct (d !! c); [done|].
  by rewrite insert_id.
Qed.

Lemma perform_components c m :
  components (after (perform c) m) =
    match c with
    | TrackUsage i o k true => alter (add_call (i + o)) k <$> components m
    | TrackUsage i o k false => alter add_error k <$> components m
    | _ => components m
    end.
Proof.
  unfold components. rewrite perform_component_usage, perform_heap.
  destruct c as [|i o k [|]|]; try done.
  - by rewrite recorded_heap_success, updated_heap_alter, lookup_alter_eq.
  - by rewrite recorded_heap_failure, updated_heap_alter, lookup_alter_eq.
Qed.

Lemma fresh_registry t0 js disk : registry_ok (fresh t0 js disk).
Proof.
  exists initial_components. split; [done|]. intros k. split.
  - intros [x Hx]. apply elem_of_list_to_map_2 in Hx.
    apply list_elem_of_fmap in Hx as (k' & [= -> _] & Hk). done.
  - intros Hk. unfold registered in Hk.
    repeat (apply elem_of_cons in Hk as [->|Hk]; [by eexists|]).
    by apply elem_of_nil in Hk.
Qed.

Lemma perform_registry c m : registry_ok m → registry_ok (after (perform c) m).
Proof.
  intros (d & Hd & Hk). unfold registry_ok. rewrite perform_components, Hd.
  destruct c as [|i o k [|]|]; simpl; eauto;
    eexists; (split; [done|]); intros k'; by rewrite lookup_alter_is_Some.
Qed.

Lemma reachable_registry P m : reachable P m → registry_ok m.
Proof.
  induction 1; [apply fresh_registry | by apply perform_registry].
Qed.

(** ** Accounting *)

Lemma run_successful_totals (ps : list (Z * Z * string)) : ∀ m,
  let s := self m in
  let s' := self (after (run (map successful ps)) m) in
  total_input_tokens s' = total_input_tokens s + Zsum (map (λ p, p.1.1) ps) ∧
  total_output_tokens s' = total_output_tokens s + Zsum (map (λ p, p.1.2) ps) ∧
  total_tokens s' = total_tokens s + Zsum (map (λ p, p.1.1 + p.1.2) ps) ∧
  total_requests s' = total_requests s + Z.of_nat (length ps).
Proof.
  induction ps as [|[[i o] c] ps IH]; intros m; cbv zeta.
  - simpl. unfold after. simpl. lia.
  - change (map successful (((i, o), c) :: ps))
      with (TrackUsage i o c true :: map successful ps).
    rewrite after_run_cons.
    destruct (IH (after (perform (TrackUsage i o c true)) m)) as (H1 & H2 & H3 & H4).
    rewrite H1, H2, H3, H4, perform_self, recorded_self_success.
    simpl. lia.
Qed.

(** C1. Accounting additivity: on a fresh ledger, any finite sequence of
    successful [track_usage] calls with token pairs [(i_k, o_k)] and any
    components returns normally and leaves [total_input_tokens] equal to the
    sum of the [i_k], [total_output_tokens] to the sum of the [o_k],
    [total_tokens] to the sum of the [i_k + o_k] and [total_requests] to the
    number of calls. *)
Theorem accounting_additivity (t0 : Q) (js : list Q) (disk : bool)
    (ps : list (Z * Z * string)) :
  ∃ m', run (map successful ps) (fresh t0 js disk) = (Ok tt, m') ∧
    total_input_tokens (self m') = Zsum (map (λ p, p.1.1) ps) ∧
    total_output_tokens (self m') = Zsum (map (λ p, p.1.2) ps) ∧
    total_tokens (self m') = Zsum (map (λ p, p.1.1 + p.1.2) ps) ∧
    total_requests (self m') = Z.of_nat (length ps).
Proof.
  eexists. split; [apply run_ok|].
  apply (run_successful_totals ps (fresh t0 js disk)).
Qed.

(** ** The token-total invariant *)

Lemma perform_token_total c m :
  token_total_ok m → token_total_ok (after (perform c) m).
Proof.
  unfold token_total_ok. intros H. rewrite perform_self.
  destruct c as [|i o k ok|]; [| |done].
  - destruct (check_rate_limit_after m) as (now & ds & _ & C).
    cbv zeta. simpl. by rewrite (ck_self _ _ _ _ C).
  - destruct ok; [|done]. rewrite recorded_self_success. simpl. lia.
Qed.

(** C10. The equality [total_tokens == total_input_tokens +
    total_output_tokens] holds on every fresh ledger, and any sequence of
    calls of [track_request_start], [track_usage] (any arguments, either
    value of [success]) and [get_usage_stats] started in a state where it
    holds returns normally in a state where it holds. *)
Theorem token_total_invariant (cs : list Call) (m : Machine) :
  token_total_ok m →
  (∀ t0 js disk, token_total_ok (fresh t0 js disk)) ∧
  ∃ m', run cs m = (Ok tt, m') ∧ token_total_ok m'.
Proof.
  intros H. split; [done|].
  eexists. split; [apply run_ok|].
  revert m H. induction cs as [|c cs IH]; intros m H; [done|].
  rewrite after_run_cons. by apply IH, perform_token_total.
Qed.

(** The invariant after one call of each kind on a fresh ledger. *)
Lemma token_total_invariant_witness :
  token_total_ok (fresh 0 [] true) ∧
  ∃ m', run [TrackRequestStart; TrackUsage 100 50 "collector" true;
             TrackUsage 7 (-3) "nobody" false; GetUsageStats]
            (fresh 0 [] true) = (Ok tt, m') ∧ token_total_ok m'.
Proof.
  split; [reflexivity|].
  apply (token_total_invariant
           [TrackRequestStart; TrackUsage 100 50 "collector" true;
            TrackUsage 7 (-3) "nobody" false; GetUsageStats]
           (fresh 0 [] true)).
  reflexivity.
Defined.

(** ** Snapshot cadence *)

Lemma saves_app tr tr' : saves (tr ++ tr') = (saves tr + saves tr')%nat.
Proof. unfold saves. by rewrite List.filter_app, length_app. Qed.

(** C2, as stated, fails: on a fresh ledger a [track_usage] call with
    [success=False] leaves [total_requests] at 0 and still runs
    [_save_usage] once. *)
Lemma snapshot_on_failed_call :
  total_requests (self (after (track_usage 0 0 "optimizer" false) (fresh 0 [] true)))
    = total_requests (self (fresh 0 [] true)) ∧
  saves (trace (fresh 0 [] true)) = 0%nat ∧
  saves (trace (after (track_usage 0 0 "optimizer" false) (fresh 0 [] true))) = 1%nat.
Proof. vm_compute. done. Qed.

(** C2, amended. Every [track_usage] call returns normally and runs
    [_save_usage] exactly once when the value of [total_requests] after the
    call's bookkeeping is a multiple of 10, and not at all otherwise;
    this holds for either value of [success]. *)
Theorem snapshot_cadence (i o : Z) (c : string) (ok : bool) (m : Machine) :
  ∃ m', track_usage i o c ok m = (Ok tt, m') ∧
    saves (trace m') =
      (saves (trace m) +
       (if (total_requests (self m') mod 10 =? 0)%Z then 1 else 0))%nat.
Proof.
  destruct (track_usage_spec i o c ok m) as (m' & E & W & T).
  exists m'. split; [done|].
  rewrite T, saves_app, (ws_self _ _ W).
  by destruct (_ =? 0).
Qed.

(** ** Per-component counters *)

(** C6. In every state a program can reach, a [track_usage] call with
    [success=True] whose component is none of the registered keys
    ([collector], [insight_agent], [optimizer], [analyzer], [dspy]) returns
    normally, increments the four totals and appends the token event, with
    the same attributes as the call would leave for any other component
    name, and changes nothing on the heap: the component table is the same
    and has no entry for that name. *)
Theorem unregistered_component (m : Machine) (i o : Z) (c : string) :
  reachable any_delay m → c ∉ registered →
  ∃ m', track_usage i o c true m = (Ok tt, m') ∧
    total_requests (self m') = total_requests (self m) + 1 ∧
    total_input_tokens (self m') = total_input_tokens (self m) + i ∧
    total_output_tokens (self m') = total_output_tokens (self m) + o ∧
    total_tokens (self m') = total_tokens (self m) + (i + o) ∧
    token_times (self m') = token_times (self m) ++ [(clock (tick m), i + o)] ∧
    (∀ c', self (after (track_usage i o c' true) m) = self m') ∧
    heap m' = heap m ∧
    components m' = components m ∧
    components m' ≫= (λ d, d !! c) = None.
Proof.
  intros Hr Hc.
  destruct (track_usage_after i o c true m) as [E W].
  exists (after (track_usage i o c true) m). split; [done|].
  destruct (reachable_registry _ _ Hr) as (d & Hd & Hk).
  assert (Hnone : d !! c = None).
  { apply eq_None_not_Some. by rewrite Hk. }
  assert (Hheap : heap (after (track_usage i o c true) m) = heap m).
  { rewrite (ws_heap _ _ W), recorded_heap_success.
    unfold updated_heap. unfold components in Hd. by rewrite Hd, Hnone. }
  assert (Hcomp : components (after (track_usage i o c true) m) = components m).
  { unfold components. by rewrite Hheap, (ws_self _ _ W), recorded_self_success. }
  rewrite (ws_self _ _ W), recorded_self_success. simpl.
  repeat (split; [done|]).
  split.
  { intros c'. destruct (track_usage_after i o c' true m) as [_ W'].
    by rewrite (ws_self _ _ W'), recorded_self_success. }
  split; [done|]. split; [done|].
  by rewrite Hcomp, Hd.
Qed.

(** [track_usage(10, 10, 'unknown_tag', True)] on a fresh ledger. *)
Lemma unregistered_component_witness :
  ∃ m', track_usage 10 10 "unknown_tag" true (fresh 0 [] true) = (Ok tt, m') ∧
    total_requests (self m') = total_requests (self (fresh 0 [] true)) + 1 ∧
    total_input_tokens (self m') = total_input_tokens (self (fresh 0 [] true)) + 10 ∧
    total_output_tokens (self m') = total_output_tokens (self (fresh 0 [] true)) + 10 ∧
    total_tokens (self m') = total_tokens (self (fresh 0 [] true)) + (10 + 10) ∧
    token_times (self m') =
      token_times (self (fresh 0 [] true)) ++ [(clock (tick (fresh 0 [] true)), 10 + 10)] ∧
    (∀ c', self (after (track_usage 10 10 c' true) (fresh 0 [] true)) = self m') ∧
    heap m' = heap (fresh 0 [] true) ∧
    components m' = components (fresh 0 [] true) ∧
    components m' ≫= (λ d, d !! "unknown_tag") = None.
Proof.
  apply (unregistered_component (fresh 0 [] true) 10 10 "unknown_tag").
  - apply reach_fresh. constructor.
  - apply (bool_decide_unpack _). vm_compute. exact I.
Defined.

Lemma counter_alter field f c k m' m :
  components m' = alter f c <$> components m →
  counter field k m' =
    if decide (c = k) then (field ∘ f) <$> (components m ≫= (λ d, d !! k))
    else counter field k m.
Proof.
  unfold counter. intros ->.
  destruct (components m) as [d|]; simpl; [|by case_decide].
  rewrite lookup_alter. case_decide; [subst|done].
  by destruct (d !! k).
Qed.

(** C7. A [track_usage] call with [success=False] returns normally and
    leaves every attribute of the singleton as it was (the four totals and
    both event windows); on the heap only the component table is touched,
    and there only the [errors] counter of the named component, which grows
    by one if the name is a key of the table: the [calls] and [tokens]
    counters of every component keep their values.  On a fresh ledger,
    [track_usage(0, 0, 'optimizer', False)] gives [errors == 1] for
    [optimizer] and [total_requests == 0]. *)
Theorem failure_path_frame (m : Machine) (i o : Z) (c : string) :
  ∃ m', track_usage i o c false m = (Ok tt, m') ∧
    self m' = self m ∧
    heap m' = alter (alter add_error c) (component_usage (self m)) (heap m) ∧
    (∀ k, counter calls k m' = counter calls k m ∧
          counter tokens k m' = counter tokens k m ∧
          counter errors k m' =
            if decide (c = k) then (λ e, e + 1) <$> counter errors k m
            else counter errors k m) ∧
    (∀ t0 js disk,
       let m'' := after (track_usage 0 0 "optimizer" false) (fresh t0 js disk) in
       counter errors "optimizer" m'' = Some 1 ∧ total_requests (self m'') = 0).
Proof.
  destruct (track_usage_after i o c false m) as [E W].
  exists (after (track_usage i o c false) m). split; [done|].
  split; [by rewrite (ws_self _ _ W)|].
  split; [by rewrite (ws_heap _ _ W), recorded_heap_failure, updated_heap_alter|].
  split.
  - intros k.
    pose proof (perform_components (TrackUsage i o c false) m) as Hc.
    simpl in Hc.
    rewrite !(counter_alter _ _ _ k _ _ Hc). unfold counter.
    case_decide; [|done].
    by destruct (components m ≫= _).
  - intros t0 js disk m''.
    pose proof (perform_components (TrackUsage 0 0 "optimizer" false) (fresh t0 js disk)) as Hc.
    pose proof (perform_self (TrackUsage 0 0 "optimizer" false) (fresh t0 js disk)) as Hs.
    simpl in Hc, Hs. fold m'' in Hc, Hs.
    split; [|by rewrite Hs].
    unfold counter. by rewrite Hc.
Qed.

(** ** Reporting *)

(** C8. In every state [get_usage_stats] returns normally with
    [estimated_cost] equal to [total_input_tokens * 0.075 / 1_000_000 +
    total_output_tokens * 0.30 / 1_000_000]; after one successful record of
    1000 input and 500 output tokens on a fresh ledger the value is
    [(1000 * 0.075 + 500 * 0.30) / 1_000_000].  (Rational arithmetic.) *)
Theorem cost_formula :
  (∀ m, ∃ st m', get_usage_stats m = (Ok st, m') ∧
     estimated_cost st =
       (inject_Z (total_input_tokens (self m)) * 0.075 / 1000000 +
        inject_Z (total_output_tokens (self m)) * 0.30 / 1000000)%Q) ∧
  (∀ t0 js disk c, ∃ m1 st m2,
     track_usage 1000 500 c true (fresh t0 js disk) = (Ok tt, m1) ∧
     get_usage_stats m1 = (Ok st, m2) ∧
     (estimated_cost st == (1000 * 0.075 + 500 * 0.30) / 1000000)%Q).
Proof.
  split.
  - intros m. eexists _, _. split; [apply get_usage_stats_spec|]. done.
  - intros t0 js disk c.
    destruct (track_usage_after 1000 500 c true (fresh t0 js disk)) as [E W].
    eexists _, _, _. split; [exact E|]. split; [apply get_usage_stats_spec|].
    unfold stats_of. simpl. rewrite (ws_self _ _ W), recorded_self_success.
    simpl. reflexivity.
Qed.

Lemma run_component_usage cs : ∀ m,
  component_usage (self (after (run cs) m)) = component_usage (self m).
Proof.
  induction cs as [|c cs IH]; intros m; [done|].
  by rewrite after_run_cons, IH, perform_component_usage.
Qed.

(** C4, as stated, fails: the breakdown inside a returned stats value
    changes when the ledger records a later call.  On a fresh ledger, the
    value returned by [get_usage_stats] shows [collector] at 0 calls; after
    a later [track_usage(100, 50, 'collector', True)] the same value shows 1
    call and 150 tokens. *)
Lemma breakdown_is_live :
  ∃ st m1, get_usage_stats (fresh 0 [] true) = (Ok st, m1) ∧
    read_breakdown st m1 ≫= (λ d, d !! "collector") = Some (mkComponentStats 0 0 0) ∧
    read_breakdown st (after (track_usage 100 50 "collector" true) m1)
      ≫= (λ d, d !! "collector") = Some (mkComponentStats 1 150 0).
Proof. eexists _, _. split; [reflexivity|]. vm_compute. done. Qed.

(** C4, amended. The ['component_breakdown'] of the value returned by
    [get_usage_stats] is the reference held in [self.component_usage], not
    a copy: after any later sequence of calls, what a reader sees through
    the returned value is the ledger's current component table.  The other
    fields are the numbers computed at the time of the call. *)
Theorem breakdown_aliases_ledger (m : Machine) (cs : list Call) :
  ∃ st m1 m2, get_usage_stats m = (Ok st, m1) ∧ run cs m1 = (Ok tt, m2) ∧
    component_breakdown st = component_usage (self m) ∧
    read_breakdown st m2 = components m2 ∧
    stats_total_requests st = total_requests (self m) ∧
    stats_total_tokens st = total_tokens (self m).
Proof.
  destruct (get_usage_stats_after m) as [E W].
  eexists _, _, _. split; [exact E|]. split; [apply run_ok|].
  split; [done|]. split; [|done].
  unfold read_breakdown, components. simpl.
  by rewrite run_component_usage, (ws_self _ _ W).
Qed.

(** ** Sleeps *)

(** C9. [check_rate_limit] and [track_request_start] return normally in
    every state (no [ValueError] from [time.sleep], no [IndexError] from
    [call_times[0]]), and every duration they hand to [time.sleep] is
    positive, in the request block as in the token block. *)
Theorem nonnegative_waits (m : Machine) :
  (∃ m1 ds, check_rate_limit m = (Ok true, m1) ∧
     trace m1 = trace m ++ map Slept ds ∧
     Forall (λ d, (0 <= d)%Q ∧ (0 < d)%Q) ds) ∧
  (∃ m' ds, track_request_start m = (Ok tt, m') ∧
     trace m' = trace m ++ map Slept ds ∧
     Forall (λ d, (0 <= d)%Q ∧ (0 < d)%Q) ds).
Proof.
  destruct (track_request_start_spec m) as (now & ds & m1 & E & C & E').
  assert (Hds : Forall (λ d, (0 <= d)%Q ∧ (0 < d)%Q) ds).
  { eapply Forall_impl; [apply C|]. simpl. intros d Hd. split; lra. }
  split.
  - exists m1, ds. split; [done|]. split; [apply C | done].
  - eexists _, ds. split; [exact E'|]. split; [|done].
    simpl. rewrite tick_trace. apply C.
Qed.

(** ** The sliding windows *)

Lemma young_dec now t :
  young now t = if Qlt_le_dec (now - t) 60 then true else false.
Proof.
  destruct (Qlt_le_dec (now - t) 60) as [H|H].
  - by apply young_lt.
  - by apply young_ge.
Qed.

Lemma prune_calls_split now l1 t l2 :
  length (prune_calls now (l1 ++ t :: l2)) =
    (length (prune_calls now (l1 ++ l2)) +
     (if Qlt_le_dec (now - t) 60 then 1 else 0))%nat.
Proof.
  unfold prune_calls. rewrite !List.filter_app. simpl.
  rewrite young_dec. destruct (Qlt_le_dec (now - t) 60);
    rewrite !length_app; simpl; lia.
Qed.

Lemma sum_tokens_from (l : list (Q * Z)) : ∀ acc,
  fold_left (λ acc e, acc + snd e) l acc = acc + sum_tokens l.
Proof.
  unfold sum_tokens. induction l as [|e l IH]; intros acc; simpl; [lia|].
  rewrite IH, (IH (0 + snd e)). lia.
Qed.

Lemma sum_tokens_app l1 l2 :
  sum_tokens (l1 ++ l2) = sum_tokens l1 + sum_tokens l2.
Proof.
  unfold sum_tokens at 1. rewrite fold_left_app.
  fold (sum_tokens l1). by rewrite sum_tokens_from.
Qed.

Lemma prune_tokens_split now l1 t w l2 :
  sum_tokens (prune_tokens now (l1 ++ (t, w) :: l2)) =
    sum_tokens (prune_tokens now (l1 ++ l2)) +
    (if Qlt_le_dec (now - t) 60 then w else 0).
Proof.
  unfold prune_tokens. rewrite !List.filter_app. simpl.
  rewrite young_dec. destruct (Qlt_le_dec (now - t) 60);
    rewrite !sum_tokens_app; [|lia].
  change ((t, w) :: List.filter (λ e, young now e.1) l2)
    with ([(t, w)] ++ List.filter (λ e, young now e.1) l2).
  rewrite sum_tokens_app. unfold sum_tokens at 2. simpl. lia.
Qed.

Lemma tick_frozen m : jitter m = [] → tick m = m.
Proof. unfold tick. by intros ->. Qed.

Lemma count_frozen (l : list Q) : ∀ m, jitter m = [] →
  length (List.filter (λ p, young (snd p) (fst p))
            (combine l (readings (length l) m))) =
  length (prune_calls (clock m) l).
Proof.
  induction l as [|t l IH]; intros m Hm; [done|].
  simpl. rewrite (tick_frozen m Hm).
  destruct (young (clock m) t); simpl; by rewrite IH.
Qed.

(** C5. An event recorded at time [t] contributes to a window read at time
    [now] exactly when [now - t < 60]: it adds 1 to the pruned
    request-event count and its weight to the pruned token sum in that
    case, and nothing when [now - t >= 60]; every event kept by a prune
    satisfies [now - t < 60].  [check_rate_limit] leaves both windows
    pruned at its last clock reading, and [current_rpm] counts the request
    events that satisfy the test at the clock reading taken for them,
    which is the request count pruned at the current time when the clock
    stands still during the call. *)
Theorem window_pruning :
  (∀ now l, Forall (λ t, (now - t < 60)%Q) (prune_calls now l)) ∧
  (∀ now l1 t l2,
     length (prune_calls now (l1 ++ t :: l2)) =
       (length (prune_calls now (l1 ++ l2)) +
        (if Qlt_le_dec (now - t) 60 then 1 else 0))%nat) ∧
  (∀ now l, Forall (λ e, (now - fst e < 60)%Q) (prune_tokens now l)) ∧
  (∀ now l1 t w l2,
     sum_tokens (prune_tokens now (l1 ++ (t, w) :: l2)) =
       sum_tokens (prune_tokens now (l1 ++ l2)) +
       (if Qlt_le_dec (now - t) 60 then w else 0)) ∧
  (∀ m, ∃ now m1, check_rate_limit m = (Ok true, m1) ∧
     call_times (self m1) =
       prune_calls now (prune_calls (clock (tick m)) (call_times (self m))) ∧
     token_times (self m1) = prune_tokens now (token_times (self m)) ∧
     Forall (λ t, (now - t < 60)%Q) (call_times (self m1)) ∧
     Forall (λ e, (now - fst e < 60)%Q) (token_times (self m1))) ∧
  (∀ m, ∃ st m1, get_usage_stats m = (Ok st, m1) ∧
     current_rpm st =
       length (List.filter
                 (λ p, if Qlt_le_dec (snd p - fst p) 60 then true else false)
                 (combine (call_times (self m))
                          (readings (length (call_times (self m))) m))) ∧
     (jitter m = [] →
      current_rpm st = length (prune_calls (clock m) (call_times (self m))))).
Proof.
  split; [apply prune_calls_young|].
  split; [apply prune_calls_split|].
  split; [apply prune_tokens_young|].
  split; [apply prune_tokens_split|].
  split.
  - intros m. destruct (check_rate_limit_spec m) as (now & ds & m1 & E & C).
    exists now, m1. split; [done|].
    rewrite (ck_self _ _ _ _ C). simpl.
    repeat split; [apply prune_calls_young | apply prune_tokens_young].
  - intros m. eexists _, _. split; [apply get_usage_stats_spec|].
    simpl. split.
    + f_equal. apply List.filter_ext. intros [t now]. apply young_dec.
    + apply count_frozen.
Qed.

(** ** Admission *)

Lemma prune_calls_length now l : (length (prune_calls now l) ≤ length l)%nat.
Proof.
  unfold prune_calls. induction l as [|t l IH]; simpl; [lia|].
  destruct (young now t); simpl; lia.
Qed.

Lemma prune_calls_all now l :
  Forall (λ t, (now - t < 60)%Q) l → prune_calls now l = l.
Proof.
  unfold prune_calls. induction 1 as [|t l Ht Hl IH]; [done|].
  simpl. apply young_lt in Ht. by rewrite Ht, IH.
Qed.

Lemma checked_bound m m1 now ds :
  checked m m1 now ds → window_bounded m →
  Z.of_nat (length (call_times (self m1))) < rpm_limit.
Proof.
  intros C [Hm Hb]. rewrite (ck_self _ _ _ _ C). simpl.
  pose proof (prune_calls_length (clock (tick m)) (call_times (self m))) as H0.
  destruct (ck_rpm _ _ _ _ C) as [[Hlt _]|(c0 & rest & El & Hw)].
  - pose proof (prune_calls_length now
      (prune_calls (clock (tick m)) (call_times (self m)))). lia.
  - specialize (Hw Hm). rewrite El in *. unfold prune_calls at 1. simpl.
    assert (Hold : young now c0 = false) by (apply young_ge; lra).
    rewrite Hold. pose proof (prune_calls_length now rest) as H1.
    unfold prune_calls in H1. simpl in H0. unfold rpm_limit in *. lia.
Qed.

Lemma perform_monotone c m : monotone m → monotone (after (perform c) m).
Proof.
  unfold monotone. intros H. destruct (perform_jitter c m) as [k ->].
  by apply Forall_drop.
Qed.

Lemma perform_window_bounded c m :
  window_bounded m → window_bounded (after (perform c) m).
Proof.
  intros Hb. split; [apply perform_monotone, Hb|].
  rewrite perform_self. destruct c as [|i o k ok|].
  - destruct (check_rate_limit_after m) as (now & ds & _ & C).
    pose proof (checked_bound _ _ _ _ C Hb). cbv zeta. simpl.
    rewrite length_app. simpl. lia.
  - destruct ok; [rewrite recorded_self_success|]; apply Hb.
  - apply Hb.
Qed.

Lemma reachable_window_bounded m : reachable forward_delay m → window_bounded m.
Proof.
  induction 1 as [t0 js disk Hjs|m c _ IH].
  - split; [exact Hjs | done].
  - by apply perform_window_bounded.
Qed.

(** C3. In every state a program can reach on a clock that does not run
    backwards, [track_request_start] returns normally, and the request
    events retained just before the new event is appended are all younger
    than 60 seconds at the last clock reading of [check_rate_limit] and are
    fewer than [rpm_limit] (so are those still younger than 60 seconds at
    the time of the append).  When the window holds [rpm_limit] = 15 events,
    all recorded within the second before the call reads the clock, the
    call does not return before 59 more seconds have passed. *)
Theorem admission_blocking (m : Machine) :
  reachable forward_delay m →
  ∃ now m1 m', check_rate_limit m = (Ok true, m1) ∧
    track_request_start m = (Ok tt, m') ∧
    call_times (self m') = call_times (self m1) ++ [clock m'] ∧
    Forall (λ t, (now - t < 60)%Q) (call_times (self m1)) ∧
    Z.of_nat (length (call_times (self m1))) < rpm_limit ∧
    Z.of_nat (length (prune_calls (clock m') (call_times (self m1)))) < rpm_limit ∧
    (Z.of_nat (length (call_times (self m))) = rpm_limit →
     Forall (λ t, (clock (tick m) - t <= 1)%Q) (call_times (self m)) →
     (clock (tick m) + 59 <= clock m')%Q).
Proof.
  intros Hr. pose proof (reachable_window_bounded m Hr) as Hb.
  destruct (track_request_start_spec m) as (now & ds & m1 & E & C & E').
  pose proof (checked_bound _ _ _ _ C Hb) as Hlt.
  eexists now, m1, _. split; [exact E|]. split; [exact E'|].
  split; [simpl; by rewrite tick_self|].
  split; [rewrite (ck_self _ _ _ _ C); apply prune_calls_young|].
  split; [exact Hlt|].
  split.
  { pose proof (prune_calls_length (clock (tick m1)) (call_times (self m1))).
    simpl. lia. }
  intros Hfull Hrecent. simpl.
  destruct Hb as [Hm _].
  assert (Hm1 : monotone m1).
  { unfold monotone. destruct (ck_jitter _ _ _ _ C) as [k ->]. by apply Forall_drop. }
  apply monotone_tick in Hm1 as [_ Hc1].
  destruct (ck_clock _ _ _ _ C Hm) as [_ Hc].
  assert (Hall : prune_calls (clock (tick m)) (call_times (self m)) = call_times (self m)).
  { apply prune_calls_all. eapply Forall_impl; [exact Hrecent|]. simpl. intros; lra. }
  destruct (ck_rpm _ _ _ _ C) as [[Hl _]|(c0 & rest & El & Hw)].
  - rewrite Hall in Hl. lia.
  - specialize (Hw Hm). rewrite Hall in El. rewrite El in Hrecent.
    inversion Hrecent; subst. lra.
Qed.

(** The sixteenth admission after fifteen at time 0. *)
Lemma admission_blocking_witness :
  reachable forward_delay full_window ∧
  ∃ now m1 m', check_rate_limit full_window = (Ok true, m1) ∧
    track_request_start full_window = (Ok tt, m') ∧
    Forall (λ t, (now - t < 60)%Q) (call_times (self m1)) ∧
    Z.of_nat (length (call_times (self m1))) < rpm_limit ∧
    (clock (tick full_window) + 59 <= clock m')%Q.
Proof.
  assert (Hr : reachable forward_delay full_window).
  { apply reachable_run, reach_fresh. constructor. }
  split; [exact Hr|].
  destruct (admission_blocking full_window Hr)
    as (now & m1 & m' & E & E' & _ & Hy & Hlt & _ & Hblock).
  exists now, m1, m'. repeat (split; [assumption|]).
  apply Hblock.
  - vm_compute. reflexivity.
  - vm_compute. repeat (constructor; [discriminate|]). constructor.
Defined.

(** * Further properties of the ledger *)

Lemma tpm_block_eq now m : tpm_block now m = (Ok tt, token_checked now m).
Proof.
  unfold tpm_block, token_checked. unfold_M. cbv zeta.
  destruct (Qle_bool _ _) eqn:E; [|done].
  apply time_sleep_ok.
  pose proof (oldest_time_young now _ (prune_tokens_young now (token_times (self m)))).
  simpl. lra.
Qed.

Lemma rpm_block_eq now m :
  rpm_block now m =
    (Ok (fst (request_checked now m)), snd (request_checked now m)).
Proof.
  unfold rpm_block, request_checked. unfold_M.
  destruct (Z.leb_spec rpm_limit (Z.of_nat (length (call_times (self m)))))
    as [Hge|Hlt]; [|done].
  destruct (call_times (self m)) as [|c0 rest] eqn:El.
  - unfold rpm_limit in Hge. simpl in Hge. lia.
  - simpl index0. unfold_M.
    destruct (Qltb 0 _) eqn:W; [|done].
    apply Qltb_lt in W.
    by rewrite time_sleep_ok by (by apply Qlt_le_weak).
Qed.

Lemma check_rate_limit_eq m : check_rate_limit m = (Ok true, rate_checked m).
Proof.
  rewrite check_rate_limit_blocks. unfold rate_checked. unfold_M. cbv zeta.
  by rewrite rpm_block_eq, tpm_block_eq.
Qed.

Lemma track_request_start_eq m : track_request_start m = (Ok tt, admitted m).
Proof.
  unfold track_request_start, admitted. unfold_M.
  by rewrite check_rate_limit_eq.
Qed.

Lemma save_usage_eq m : _save_usage m = (Ok tt, saved m).
Proof.
  unfold _save_usage, try_except, saved. unfold_M.
  rewrite get_usage_stats_spec. unfold write_file. cbv zeta.
  set (m1 := Nat.iter _ tick (tick m)).
  destruct (disk_ok m1) eqn:D; simpl; rewrite ?D; reflexivity.
Qed.

Lemma track_usage_eq i o c ok m :
  track_usage i o c ok m =
    (Ok tt,
     if total_requests (self (recorded i o c ok m)) mod 10 =? 0
     then saved (recorded i o c ok m) else recorded i o c ok m).
Proof.
  rewrite track_usage_unfold. cbv zeta.
  destruct (_ =? 0); [apply save_usage_eq | done].
Qed.

Lemma iter_tick_monotone k : ∀ m,
  monotone m → monotone (Nat.iter k tick m) ∧ (clock m <= clock (Nat.iter k tick m))%Q.
Proof.
  induction k as [|k IH]; intros m Hm; [split; [done | simpl; lra]|].
  rewrite Nat.iter_succ_r.
  destruct (monotone_tick m Hm) as [Hm' Hc].
  destruct (IH _ Hm') as [? ?]. split; [done | lra].
Qed.

Lemma perform_clock c m :
  monotone m → (clock m <= clock (after (perform c) m))%Q.
Proof.
  intros Hm. destruct c as [|i o k ok|].
  - unfold after. simpl perform.
    destruct (track_request_start_spec m) as (now & ds & m1 & E & C & ->).
    simpl.
    assert (Hm1 : monotone m1).
    { unfold monotone. destruct (ck_jitter _ _ _ _ C) as [j ->]. by apply Forall_drop. }
    destruct (monotone_tick m Hm) as [_ H0].
    destruct (monotone_tick m1 Hm1) as [_ H1].
    destruct (ck_clock _ _ _ _ C Hm) as [H2 H3]. lra.
  - unfold after. simpl perform. rewrite track_usage_eq. cbn [snd].
    assert (Hr : monotone (recorded i o k ok m) ∧ (clock m <= clock (recorded i o k ok m))%Q).
    { unfold recorded. destruct ok; simpl.
      - rewrite tick_with_self. simpl.
        destruct (monotone_tick m Hm) as [? ?]. split; [done | lra].
      - split; [done | lra]. }
    destruct Hr as [Hr Hc].
    destruct (_ =? 0); [|done].
    unfold saved. cbv zeta.
    destruct (monotone_tick _ Hr) as [Hr' Hc'].
    destruct (iter_tick_monotone (length (call_times (self (tick (recorded i o k ok m)))))
                _ Hr') as [_ Hc''].
    destruct (disk_ok _); simpl; lra.
  - unfold after. simpl perform. unfold_M. rewrite get_usage_stats_spec. simpl.
    by apply iter_tick_monotone.
Qed.

Lemma ascending_filter (f : Q → bool) l : ascending l → ascending (List.filter f l).
Proof.
  induction l as [|t l IH]; [done|]. intros [Ht Hl]. simpl.
  destruct (f t); [|by apply IH].
  split; [|by apply IH].
  apply List.Forall_forall. intros u Hu. apply List.filter_In in Hu as [Hu _].
  by apply (proj1 (List.Forall_forall _ _) Ht).
Qed.

Lemma ascending_snoc l t :
  ascending l → Forall (λ u, (u <= t)%Q) l → ascending (l ++ [t]).
Proof.
  induction l as [|a l IH]; [by repeat constructor|].
  intros [Ha Hl] Hall. inversion Hall as [|? ? Hat Hlt]; subst. simpl. split.
  - apply Forall_app. split; [done | by constructor].
  - by apply IH.
Qed.

Lemma Forall_filter_keep {A} (P : A → Prop) (f : A → bool) l :
  Forall P l → Forall P (List.filter f l).
Proof.
  intros H. apply List.Forall_forall. intros x Hx.
  apply List.filter_In in Hx as [Hx _].
  by apply (proj1 (List.Forall_forall _ _) H).
Qed.

Lemma map_fst_filter (f : Q → bool) (l : list (Q * Z)) :
  map fst (List.filter (λ e, f (fst e)) l) = List.filter f (map fst l).
Proof.
  induction l as [|e l IH]; [done|]. simpl.
  destruct (f (fst e)); simpl; by rewrite IH.
Qed.

Lemma fresh_timeline t0 js disk : Forall forward_delay js → timeline_ok (fresh t0 js disk).
Proof. intros H. by split. Qed.

Lemma perform_timeline c m : timeline_ok m → timeline_ok (after (perform c) m).
Proof.
  intros [Hm Hc Hcp Ht Htp].
  pose proof (perform_clock c m Hm) as Hclk.
  pose proof (perform_monotone c m Hm) as Hm'.
  pose proof (perform_self c m) as Hs.
  destruct c as [|i o k ok|]; simpl perform in *.
  - destruct (check_rate_limit_after m) as (now & ds & E & C).
    cbv zeta in Hs. set (m1 := after check_rate_limit m) in *.
    assert (Hm1 : monotone m1).
    { unfold monotone. destruct (ck_jitter _ _ _ _ C) as [j ->]. by apply Forall_drop. }
    destruct (monotone_tick m Hm) as [_ H0].
    destruct (monotone_tick m1 Hm1) as [_ H1].
    destruct (ck_clock _ _ _ _ C Hm) as [H2 H3].
    simpl perform in *.
    assert (Hfin : clock (after track_request_start m) = clock (tick m1)).
    { unfold after.
      destruct (track_request_start_spec m) as (? & ? & m1' & E' & _ & ->).
      unfold m1, after. rewrite E'. done. }
    pose proof (ck_self _ _ _ _ C) as Hs1.
    assert (Hc1 : call_times (self m1) =
      prune_calls now (prune_calls (clock (tick m)) (call_times (self m))))
      by (by rewrite Hs1).
    assert (Ht1 : token_times (self m1) = prune_tokens now (token_times (self m)))
      by (by rewrite Hs1).
    split; [done| | | |]; rewrite Hs; simpl; rewrite ?Hfin.
    + apply ascending_snoc.
      * rewrite Hc1. by do 2 apply ascending_filter.
      * rewrite Hc1. do 2 apply Forall_filter_keep.
        eapply Forall_impl; [exact Hcp|]. simpl. intros; lra.
    + apply Forall_app. split; [|constructor; [lra | constructor]].
      rewrite Hc1. do 2 apply Forall_filter_keep.
      eapply Forall_impl; [exact Hcp|]. simpl. intros; lra.
    + rewrite Ht1. unfold prune_tokens.
      rewrite (map_fst_filter (young now)). by apply ascending_filter.
    + rewrite Ht1. apply Forall_filter_keep.
      eapply Forall_impl; [exact Htp|]. simpl. intros; lra.
  - destruct ok.
    + rewrite recorded_self_success in Hs.
      assert (Hnew : (clock (tick m) <= clock (after (track_usage i o k true) m))%Q).
      { unfold after. rewrite track_usage_eq. cbn [snd].
        assert (Hr : monotone (recorded i o k true m) ∧
                     clock (recorded i o k true m) = clock (tick m)).
        { unfold recorded. simpl. rewrite tick_with_self. simpl.
          split; [|done]. by apply monotone_tick. }
        destruct Hr as [Hr Hr'].
        destruct (_ =? 0); [|rewrite Hr'; lra].
        unfold saved. cbv zeta.
        destruct (monotone_tick _ Hr) as [Hr2 Hc2].
        destruct (iter_tick_monotone
                    (length (call_times (self (tick (recorded i o k true m)))))
                    _ Hr2) as [_ Hc3].
        rewrite Hr' in Hc2.
        destruct (disk_ok _); cbn [clock]; lra. }
      destruct (monotone_tick m Hm) as [_ H0].
      split; [done| | | |]; rewrite Hs; simpl.
      * done.
      * eapply Forall_impl; [exact Hcp|]. simpl. intros; lra.
      * rewrite map_app. simpl. apply ascending_snoc; [done|].
        apply Forall_fmap. eapply Forall_impl; [exact Htp|]. simpl. intros; lra.
      * apply Forall_app. split; [|constructor; [simpl; lra | constructor]].
        eapply Forall_impl; [exact Htp|]. simpl. intros; lra.
    + simpl in Hs. split; [done| | | |]; rewrite Hs; try done.
      * eapply Forall_impl; [exact Hcp|]. simpl. intros; lra.
      * eapply Forall_impl; [exact Htp|]. simpl. intros; lra.
  - split; [done| | | |]; rewrite Hs; try done.
    + eapply Forall_impl; [exact Hcp|]. simpl. intros; lra.
    + eapply Forall_impl; [exact Htp|]. simpl. intros; lra.
Qed.

Lemma reachable_timeline m : reachable forward_delay m → timeline_ok m.
Proof.
  induction 1 as [t0 js disk Hjs|m c _ IH];
    [by apply fresh_timeline | by apply perform_timeline].
Qed.

(** ** The clock and the windows *)

Lemma threshold_reached s :
  Qle_bool (inject_Z tpm_limit * 0.9) (inject_Z s) = true ↔ 900000 ≤ s.
Proof.
  rewrite Qle_bool_iff. unfold Qle, tpm_limit. simpl. lia.
Qed.

Lemma threshold_not_reached s :
  Qle_bool (inject_Z tpm_limit * 0.9) (inject_Z s) = false ↔ s < 900000.
Proof.
  rewrite <- not_true_iff_false, threshold_reached. lia.
Qed.



Lemma current_rpm_le m :
  (current_rpm (stats_of m) ≤ length (call_times (self m)))%nat.
Proof.
  simpl. etrans; [apply List.filter_length_le|].
  rewrite length_combine. lia.
Qed.

(** X3. In every state a program can reach on a clock that does not run
    backwards, the [current_rpm] reported by [get_usage_stats] is at most
    [rpm_limit]. *)
Theorem reported_rpm_within_limit (m : Machine) :
  reachable forward_delay m →
  ∃ st m', get_usage_stats m = (Ok st, m') ∧ Z.of_nat (current_rpm st) ≤ rpm_limit.
Proof.
  intros Hr. eexists _, _. split; [apply get_usage_stats_spec|].
  destruct (reachable_window_bounded m Hr) as [_ Hb].
  pose proof (current_rpm_le m). lia.
Qed.

(** The report after fifteen admissions at time 0. *)
Lemma reported_rpm_within_limit_witness :
  ∃ st m', get_usage_stats full_window = (Ok st, m') ∧
           Z.of_nat (current_rpm st) ≤ rpm_limit.
Proof.
  apply (reported_rpm_within_limit full_window).
  apply reachable_run, reach_fresh. constructor.
Defined.

(** X4. In every state a program can reach on a clock that does not run
    backwards, both windows are in time order and hold no timestamp later
    than the clock; in particular [call_times[0]], which the wait formula
    of [check_rate_limit] reads, is the oldest retained request. *)
Theorem windows_in_time_order (m : Machine) :
  reachable forward_delay m →
  ascending (call_times (self m)) ∧
  Forall (λ t, (t <= clock m)%Q) (call_times (self m)) ∧
  ascending (map fst (token_times (self m))) ∧
  Forall (λ e, (fst e <= clock m)%Q) (token_times (self m)) ∧
  (∀ c0 rest, call_times (self m) = c0 :: rest → Forall (λ t, (c0 <= t)%Q) rest).
Proof.
  intros Hr. destruct (reachable_timeline m Hr) as [_ H1 H2 H3 H4].
  repeat (split; [done|]).
  intros c0 rest E. rewrite E in H1. apply H1.
Qed.

(** The windows after fifteen admissions at time 0. *)
Lemma windows_in_time_order_witness :
  ascending (call_times (self full_window)) ∧
  Forall (λ t, (t <= clock full_window)%Q) (call_times (self full_window)) ∧
  ascending (map fst (token_times (self full_window))) ∧
  Forall (λ e, (fst e <= clock full_window)%Q) (token_times (self full_window)) ∧
  (∀ c0 rest, call_times (self full_window) = c0 :: rest →
              Forall (λ t, (c0 <= t)%Q) rest).
Proof.
  apply (windows_in_time_order full_window).
  apply reachable_run, reach_fresh. constructor.
Defined.

(** ** When and how long an admission sleeps *)

Lemma request_checked_free now m :
  Z.of_nat (length (call_times (self m))) < rpm_limit →
  request_checked now m = (now, m).
Proof.
  intros H. unfold request_checked.
  destruct (Z.leb_spec rpm_limit (Z.of_nat (length (call_times (self m))))); [lia | done].
Qed.

Lemma request_checked_full now m c0 rest :
  call_times (self m) = c0 :: rest →
  rpm_limit ≤ Z.of_nat (length (call_times (self m))) →
  (now - c0 < 60)%Q →
  request_checked now m =
    (clock (tick (slept (60 - (now - c0) + 1) m)),
     with_self (λ s, set_call_times
                       (prune_calls (clock (tick (slept (60 - (now - c0) + 1) m)))
                                    (call_times s)) s)
               (tick (slept (60 - (now - c0) + 1) m))).
Proof.
  intros El Hge Hy. unfold request_checked.
  destruct (Z.leb_spec rpm_limit (Z.of_nat (length (call_times (self m))))); [|lia].
  rewrite El.
  assert (W : Qltb 0 (60 - (now - c0) + 1) = true) by (apply Qltb_lt; lra).
  by rewrite W.
Qed.

Lemma token_checked_trace now m :
  trace (token_checked now m) =
    trace m ++
    (if Qle_bool (inject_Z tpm_limit * 0.9)
                 (inject_Z (sum_tokens (prune_tokens now (token_times (self m)))))
     then [Slept (60 - (now - oldest_time now (prune_tokens now (token_times (self m)))) + 1)]
     else []).
Proof.
  unfold token_checked. cbv zeta. simpl.
  destruct (Qle_bool _ _); simpl; [done | by rewrite app_nil_r].
Qed.

Lemma token_checked_self now m :
  self (token_checked now m) =
    set_token_times (prune_tokens now (token_times (self m))) (self m).
Proof.
  unfold token_checked. cbv zeta. simpl. by destruct (Qle_bool _ _).
Qed.

Lemma token_checked_clock now m :
  clock (token_checked now m) =
    if Qle_bool (inject_Z tpm_limit * 0.9)
                (inject_Z (sum_tokens (prune_tokens now (token_times (self m)))))
    then (clock m + (60 - (now - oldest_time now (prune_tokens now (token_times (self m)))) + 1))%Q
    else clock m.
Proof.
  unfold token_checked. cbv zeta. simpl. by destruct (Qle_bool _ _).
Qed.

Lemma token_checked_jitter now m : jitter (token_checked now m) = jitter m.
Proof.
  unfold token_checked. cbv zeta. simpl. by destruct (Qle_bool _ _).
Qed.

(** The smallest timestamp, as [min] computes it. *)
Lemma oldest_time_fold_le (rest : list (Q * Z)) : ∀ best,
  let r := fold_left (λ best e', if Qltb (fst e') best then fst e' else best)
                     rest best in
  (r <= best)%Q ∧ Forall (λ e, (r <= fst e)%Q) rest.
Proof.
  induction rest as [|e rest IH]; intros best; simpl; [split; [lra | done]|].
  destruct (IH (if Qltb (fst e) best then fst e else best)) as [H1 H2].
  destruct (Qltb (fst e) best) eqn:E.
  - apply Qltb_lt in E. split; [lra|]. constructor; [lra | done].
  - apply Qltb_ge in E. split; [lra|]. constructor; [lra | done].
Qed.

Lemma oldest_time_le now (l : list (Q * Z)) :
  Forall (λ e, (oldest_time now l <= fst e)%Q) l.
Proof.
  destruct l as [|e rest]; [done|]. simpl.
  destruct (oldest_time_fold_le rest (fst e)) as [H1 H2].
  by constructor.
Qed.

Lemma sum_tokens_nil_iff (l : list (Q * Z)) : 0 < sum_tokens l → l ≠ [].
Proof. intros H ->. unfold sum_tokens in H. simpl in H. lia. Qed.

Lemma app_cons_ne {A} (l l' : list A) x : l ++ x :: l' ≠ l.
Proof.
  intros H. apply (f_equal length) in H. rewrite length_app in H. simpl in H. lia.
Qed.

Lemma token_wait_bounds now (l : list (Q * Z)) :
  Forall (λ e, (fst e <= now)%Q) l →
  (1 < 60 - (now - oldest_time now (prune_tokens now l)) + 1)%Q ∧
  (60 - (now - oldest_time now (prune_tokens now l)) + 1 <= 61)%Q.
Proof.
  intros Hl.
  pose proof (oldest_time_young now _ (prune_tokens_young now l)) as Hy.
  destruct (oldest_time_in now (prune_tokens now l)) as [[_ ->]|Hin]; [split; lra|].
  apply List.in_map_iff in Hin as (e & He & Hin).
  apply List.filter_In in Hin as [Hin _].
  pose proof (proj1 (List.Forall_forall _ _) Hl e Hin) as Hle.
  simpl in Hle. rewrite He in Hle. split; lra.
Qed.

(** The machine on which the token block runs, and the value of [now]
    there, in the two cases of the request block. *)
Lemma rate_checked_free m :
  Z.of_nat (length (recent_calls m)) < rpm_limit →
  rate_checked m =
    token_checked (entry_time m)
      (with_self (λ s, set_call_times (prune_calls (entry_time m) (call_times s)) s)
                 (tick m)).
Proof.
  intros H. unfold rate_checked. cbv zeta. fold (entry_time m).
  rewrite request_checked_free; [done|].
  simpl. by rewrite tick_self.
Qed.

Lemma rate_checked_full m c0 rest :
  recent_calls m = c0 :: rest →
  rpm_limit ≤ Z.of_nat (length (recent_calls m)) →
  let m0 := with_self (λ s, set_call_times (prune_calls (entry_time m) (call_times s)) s)
                      (tick m) in
  let m1 := tick (slept (60 - (entry_time m - c0) + 1) m0) in
  rate_checked m =
    token_checked (clock m1)
      (with_self (λ s, set_call_times (prune_calls (clock m1) (call_times s)) s) m1).
Proof.
  intros El Hge m0 m1. unfold rate_checked. cbv zeta. fold (entry_time m). fold m0.
  assert (Hc : call_times (self m0) = c0 :: rest).
  { unfold m0. simpl. by rewrite tick_self. }
  rewrite (request_checked_full (entry_time m) m0 c0 rest Hc).
  - done.
  - by rewrite Hc, <- El.
  - pose proof (prune_calls_young (entry_time m) (call_times (self m))) as Hy.
    fold (recent_calls m) in Hy. rewrite El in Hy. by inversion Hy.
Qed.

Lemma admitted_trace m : trace (admitted m) = trace (rate_checked m).
Proof. unfold admitted. simpl. apply tick_trace. Qed.

(** X5. [track_request_start] returns without calling [time.sleep]
    exactly when, at its first clock reading, fewer than [rpm_limit] request
    events are younger than 60 s and the token events younger than 60 s sum
    to less than 900000 (90% of [tpm_limit]).  It then leaves both windows
    pruned at that reading, appends its own timestamp and has read the
    clock twice. *)
Theorem admission_without_sleep (m : Machine) :
  ∃ m', track_request_start m = (Ok tt, m') ∧
    (trace m' = trace m ↔
     Z.of_nat (length (recent_calls m)) < rpm_limit ∧
     sum_tokens (recent_tokens m) < 900000) ∧
    (trace m' = trace m →
     call_times (self m') = recent_calls m ++ [clock m'] ∧
     token_times (self m') = recent_tokens m ∧
     clock m' = clock (tick (tick m))).
Proof.
  exists (admitted m). split; [apply track_request_start_eq|].
  rewrite admitted_trace.
  destruct (Z.lt_ge_cases (Z.of_nat (length (recent_calls m))) rpm_limit) as [Hfree|Hfull].
  - rewrite (rate_checked_free m Hfree), token_checked_trace.
    simpl. rewrite tick_self, tick_trace. fold (recent_tokens m).
    destruct (Qle_bool _ _) eqn:Ethr.
    + apply threshold_reached in Ethr. split.
      * split; [intros H; by apply app_cons_ne in H | lia].
      * intros H. by apply app_cons_ne in H.
    + apply threshold_not_reached in Ethr. rewrite app_nil_r. split; [done|].
      intros _. unfold admitted. rewrite (rate_checked_free m Hfree).
      unfold token_checked. cbv zeta. simpl. rewrite !tick_self.
      fold (recent_tokens m).
      apply threshold_not_reached in Ethr. rewrite Ethr. simpl.
      rewrite !tick_with_self. simpl. rewrite !tick_self. done.
  - destruct (recent_calls m) as [|c0 rest] eqn:El;
      [unfold rpm_limit in Hfull; simpl in Hfull; lia|].
    rewrite <- El in Hfull.
    rewrite (rate_checked_full m c0 rest El Hfull). cbv zeta.
    rewrite token_checked_trace. simpl. rewrite !tick_trace. simpl.
    rewrite tick_trace, <- app_assoc. simpl.
    rewrite El in Hfull. simpl length in Hfull.
    split; [split; [intros H; by apply app_cons_ne in H | intros [? _]; lia]|].
    intros H. by apply app_cons_ne in H.
Qed.

Lemma admitted_trace_free m :
  Z.of_nat (length (recent_calls m)) < rpm_limit →
  trace (admitted m) =
    trace m ++
    (if Qle_bool (inject_Z tpm_limit * 0.9) (inject_Z (sum_tokens (recent_tokens m)))
     then [Slept (60 - (entry_time m - oldest_time (entry_time m) (recent_tokens m)) + 1)]
     else []).
Proof.
  intros Hfree.
  rewrite admitted_trace, (rate_checked_free m Hfree), token_checked_trace.
  simpl. by rewrite tick_self, tick_trace.
Qed.

Lemma admitted_trace_full m c0 rest :
  recent_calls m = c0 :: rest →
  rpm_limit ≤ Z.of_nat (length (recent_calls m)) →
  let m0 := with_self (λ s, set_call_times (prune_calls (entry_time m) (call_times s)) s)
                      (tick m) in
  let now1 := clock (tick (slept (60 - (entry_time m - c0) + 1) m0)) in
  trace (admitted m) =
    trace m ++
    Slept (60 - (entry_time m - c0) + 1) ::
    (if Qle_bool (inject_Z tpm_limit * 0.9)
                 (inject_Z (sum_tokens (prune_tokens now1 (token_times (self m)))))
     then [Slept (60 - (now1 - oldest_time now1 (prune_tokens now1 (token_times (self m)))) + 1)]
     else []).
Proof.
  intros El Hfull m0 now1.
  rewrite admitted_trace, (rate_checked_full m c0 rest El Hfull). cbv zeta.
  rewrite token_checked_trace. fold m0. fold now1.
  cbn [trace self with_self token_times set_call_times].
  rewrite !tick_trace, !tick_self.
  cbn [trace self slept]. unfold m0.
  cbn [trace self with_self token_times set_call_times].
  by rewrite tick_trace, tick_self, <- app_assoc.
Qed.

(** X6. In every state a program can reach on a clock that does not run
    backwards, [track_request_start] sleeps at most twice (once for each
    budget), each time for more than 1 s and at most 61 s. *)
Theorem admission_sleeps_are_bounded (m : Machine) :
  reachable forward_delay m →
  ∃ m' ds, track_request_start m = (Ok tt, m') ∧
    trace m' = trace m ++ map Slept ds ∧
    (length ds ≤ 2)%nat ∧
    Forall (λ d, (1 < d)%Q ∧ (d <= 61)%Q) ds.
Proof.
  intros Hr. destruct (reachable_timeline m Hr) as [Hm _ Hcp _ Htp].
  destruct (monotone_tick m Hm) as [Hm0 Hc0]. fold (entry_time m) in Hc0.
  exists (admitted m).
  assert (Htok : ∀ now, (entry_time m <= now)%Q →
            Forall (λ e, (fst e <= now)%Q) (token_times (self m))).
  { intros now Hn. eapply Forall_impl; [exact Htp|]. simpl. intros; lra. }
  destruct (Z.lt_ge_cases (Z.of_nat (length (recent_calls m))) rpm_limit) as [Hfree|Hfull].
  - pose proof (admitted_trace_free m Hfree) as Ht.
    destruct (Qle_bool _ _).
    + eexists [_]. split; [apply track_request_start_eq|]. split; [exact Ht|].
      split; [simpl; lia|]. constructor; [|done].
      apply token_wait_bounds, Htok. lra.
    + exists []. split; [apply track_request_start_eq|]. split; [exact Ht|].
      split; [simpl; lia | done].
  - destruct (recent_calls m) as [|c0 rest] eqn:El;
      [unfold rpm_limit in Hfull; simpl in Hfull; lia|].
    rewrite <- El in Hfull.
    pose proof (admitted_trace_full m c0 rest El Hfull) as Ht. cbv zeta in Ht.
    assert (Hw : (1 < 60 - (entry_time m - c0) + 1)%Q ∧ (60 - (entry_time m - c0) + 1 <= 61)%Q).
    { pose proof (prune_calls_young (entry_time m) (call_times (self m))) as Hy.
      fold (recent_calls m) in Hy. rewrite El in Hy. inversion Hy as [|? ? Hy0 _]; subst.
      assert (Hin : In c0 (call_times (self m))).
      { assert (Hin' : In c0 (recent_calls m)) by (rewrite El; by left).
        apply List.filter_In in Hin'. apply Hin'. }
      pose proof (proj1 (List.Forall_forall _ _) Hcp c0 Hin) as Hle.
      simpl in Hle. split; lra. }
    set (m0 := with_self _ (tick m)) in *.
    set (w := (60 - (entry_time m - c0) + 1)%Q) in *.
    assert (Hnow1 : (entry_time m <= clock (tick (slept w m0)))%Q).
    { assert (Hs : monotone (slept w m0)) by exact Hm0.
      apply monotone_tick in Hs as [_ Hs]. simpl in Hs. fold (entry_time m) in Hs.
      destruct Hw. lra. }
    destruct (Qle_bool _ _).
    + eexists [w; _]. split; [apply track_request_start_eq|]. split; [exact Ht|].
      split; [simpl; lia|]. constructor; [done|]. constructor; [|done].
      by apply token_wait_bounds, Htok.
    + exists [w]. split; [apply track_request_start_eq|]. split; [exact Ht|].
      split; [simpl; lia|]. by constructor.
Qed.

(** The sixteenth admission after fifteen at time 0: one sleep of 61 s. *)
Lemma admission_sleeps_are_bounded_witness :
  ∃ m' ds, track_request_start full_window = (Ok tt, m') ∧
    trace m' = trace full_window ++ map Slept ds ∧
    (length ds ≤ 2)%nat ∧
    Forall (λ d, (1 < d)%Q ∧ (d <= 61)%Q) ds.
Proof.
  apply (admission_sleeps_are_bounded full_window).
  apply reachable_run, reach_fresh. constructor.
Defined.

(** X7. When the request window has room and the token events younger than
    60 s sum to 900000 or more, [track_request_start] sleeps once, for 61 s
    minus the age of the oldest retained token event; that event is the
    minimum timestamp of the pruned token window, which is not empty.  The
    token window is not pruned again after the sleep, and on a clock that
    does not run backwards the call returns when that oldest event is at
    least 61 s old. *)
Theorem token_threshold_wait (m : Machine) :
  Z.of_nat (length (recent_calls m)) < rpm_limit →
  900000 ≤ sum_tokens (recent_tokens m) →
  ∃ m', track_request_start m = (Ok tt, m') ∧
    trace m' = trace m ++
      [Slept (60 - (entry_time m - oldest_time (entry_time m) (recent_tokens m)) + 1)] ∧
    In (oldest_time (entry_time m) (recent_tokens m)) (map fst (recent_tokens m)) ∧
    Forall (λ e, (oldest_time (entry_time m) (recent_tokens m) <= fst e)%Q)
           (recent_tokens m) ∧
    token_times (self m') = recent_tokens m ∧
    (monotone m →
     (oldest_time (entry_time m) (recent_tokens m) + 61 <= clock m')%Q).
Proof.
  intros Hfree Hthr. exists (admitted m).
  split; [apply track_request_start_eq|].
  pose proof (proj2 (threshold_reached _) Hthr) as Ethr.
  split.
  { by rewrite (admitted_trace_free m Hfree), Ethr. }
  split.
  { destruct (oldest_time_in (entry_time m) (recent_tokens m)) as [[Hnil _]|H]; [|done].
    rewrite Hnil in Hthr. unfold sum_tokens in Hthr. simpl in Hthr. lia. }
  split; [apply oldest_time_le|].
  assert (Hs : self (admitted m) =
    set_call_times (recent_calls m ++ [clock (admitted m)])
      (set_token_times (recent_tokens m) (self m))).
  { unfold admitted. rewrite (rate_checked_free m Hfree). simpl.
    rewrite !tick_self, token_checked_self. simpl. by rewrite !tick_self. }
  split; [by rewrite Hs|].
  intros Hm.
  unfold admitted. rewrite (rate_checked_free m Hfree). simpl.
  set (m0 := with_self _ (tick m)).
  assert (Hmt : monotone (token_checked (entry_time m) m0)).
  { unfold monotone. rewrite token_checked_jitter. simpl. by apply monotone_tick. }
  apply monotone_tick in Hmt as [_ Hc].
  rewrite token_checked_clock in Hc. simpl in Hc. rewrite tick_self in Hc.
  fold (recent_tokens m) in Hc. rewrite Ethr in Hc. fold (entry_time m) in Hc.
  lra.
Qed.

(** After 900000 tokens recorded at time 0, an admission at time 0 sleeps
    61 s. *)
Lemma token_threshold_wait_witness :
  ∃ m', track_request_start heavy_minute = (Ok tt, m') ∧
    trace m' = trace heavy_minute ++
      [Slept (60 - (entry_time heavy_minute -
                    oldest_time (entry_time heavy_minute) (recent_tokens heavy_minute)) + 1)] ∧
    In (oldest_time (entry_time heavy_minute) (recent_tokens heavy_minute))
       (map fst (recent_tokens heavy_minute)) ∧
    Forall (λ e, (oldest_time (entry_time heavy_minute) (recent_tokens heavy_minute)
                    <= fst e)%Q)
           (recent_tokens heavy_minute) ∧
    token_times (self m') = recent_tokens heavy_minute ∧
    (monotone heavy_minute →
     (oldest_time (entry_time heavy_minute) (recent_tokens heavy_minute) + 61
        <= clock m')%Q).
Proof.
  apply (token_threshold_wait heavy_minute); vm_compute; [reflexivity | discriminate].
Defined.

(** ** Runs with calls of every kind *)

Lemma perform_totals c m :
  let s := self m in
  let s' := self (after (perform c) m) in
  match c with
  | TrackUsage i o _ true =>
      total_requests s' = total_requests s + 1 ∧
      total_input_tokens s' = total_input_tokens s + i ∧
      total_output_tokens s' = total_output_tokens s + o ∧
      total_tokens s' = total_tokens s + (i + o)
  | _ =>
      total_requests s' = total_requests s ∧
      total_input_tokens s' = total_input_tokens s ∧
      total_output_tokens s' = total_output_tokens s ∧
      total_tokens s' = total_tokens s
  end.
Proof.
  cbv zeta. rewrite perform_self. destruct c as [|i o k [|]|]; try done.
  - destruct (check_rate_limit_after m) as (now & ds & _ & C).
    cbv zeta. simpl. by rewrite (ck_self _ _ _ _ C).
  - by rewrite recorded_self_success.
Qed.

Lemma run_totals (cs : list Call) : ∀ m,
  total_requests (self (after (run cs) m)) =
    total_requests (self m) + Z.of_nat (length (recorded_successes cs)) ∧
  total_input_tokens (self (after (run cs) m)) =
    total_input_tokens (self m) + Zsum (map (λ p, p.1.1) (recorded_successes cs)) ∧
  total_output_tokens (self (after (run cs) m)) =
    total_output_tokens (self m) + Zsum (map (λ p, p.1.2) (recorded_successes cs)) ∧
  total_tokens (self (after (run cs) m)) =
    total_tokens (self m) + Zsum (map (λ p, p.1.1 + p.1.2) (recorded_successes cs)).
Proof.
  induction cs as [|c cs IH]; intros m.
  - unfold after. simpl. lia.
  - rewrite after_run_cons.
    destruct (IH (after (perform c) m)) as (H1 & H2 & H3 & H4).
    rewrite H1, H2, H3, H4. clear IH H1 H2 H3 H4.
    pose proof (perform_totals c m) as Hp. cbv zeta in Hp.
    destruct c as [|i o k [|]|]; destruct Hp as (-> & -> & -> & ->);
      simpl; lia.
Qed.

(** X9. After any sequence of calls of the three operations, from any
    state, the four totals have grown by the number of [track_usage] calls
    with [success=True] and by the sums of their token arguments: failed
    records, admissions and queries leave the totals alone. *)
Theorem totals_count_successful_records (cs : list Call) (m : Machine) :
  ∃ m', run cs m = (Ok tt, m') ∧
    total_requests (self m') =
      total_requests (self m) + Z.of_nat (length (recorded_successes cs)) ∧
    total_input_tokens (self m') =
      total_input_tokens (self m) + Zsum (map (λ p, p.1.1) (recorded_successes cs)) ∧
    total_output_tokens (self m') =
      total_output_tokens (self m) + Zsum (map (λ p, p.1.2) (recorded_successes cs)) ∧
    total_tokens (self m') =
      total_tokens (self m) + Zsum (map (λ p, p.1.1 + p.1.2) (recorded_successes cs)).
Proof.
  eexists. split; [apply run_ok | apply run_totals].
Qed.

Lemma fmap_add_add (a b : Z) (x : option Z) :
  (λ n, n + b) <$> ((λ n, n + a) <$> x) = (λ n, n + (a + b)) <$> x.
Proof. destruct x; simpl; [f_equal; lia | done]. Qed.

Lemma fmap_add_0 (x : option Z) : (λ n, n + 0) <$> x = x.
Proof. destruct x; simpl; [f_equal; lia | done]. Qed.

Lemma perform_counters c m k :
  let m' := after (perform c) m in
  counter calls k m' =
    (λ n, n + Z.of_nat (length (for_component k (recorded_successes [c]))))
      <$> counter calls k m ∧
  counter tokens k m' =
    (λ n, n + Zsum (map (λ p, p.1.1 + p.1.2) (for_component k (recorded_successes [c]))))
      <$> counter tokens k m ∧
  counter errors k m' =
    (λ n, n + Z.of_nat (length (List.filter (λ f, bool_decide (f = k)) (recorded_failures [c]))))
      <$> counter errors k m.
Proof.
  cbv zeta. pose proof (perform_components c m) as Hc.
  destruct c as [|i o c [|]|]; simpl in Hc; simpl perform.
  - unfold counter. rewrite Hc. simpl. by rewrite !fmap_add_0.
  - rewrite !(counter_alter _ _ _ k _ _ Hc). unfold counter.
    unfold for_component. simpl.
    case_decide as Hk.
    + subst. rewrite bool_decide_eq_true_2 by done. simpl.
      destruct (components m ≫= _) as [x|]; simpl; [|done].
      repeat split; f_equal; lia.
    + rewrite bool_decide_eq_false_2 by done. simpl. by rewrite !fmap_add_0.
  - rewrite !(counter_alter _ _ _ k _ _ Hc). unfold counter.
    unfold for_component. simpl.
    case_decide as Hk.
    + subst. rewrite bool_decide_eq_true_2 by done. simpl.
      destruct (components m ≫= _) as [x|]; simpl; [|done].
      repeat split; f_equal; lia.
    + rewrite bool_decide_eq_false_2 by done. simpl. by rewrite !fmap_add_0.
  - unfold counter. rewrite Hc. simpl. by rewrite !fmap_add_0.
Qed.

Lemma recorded_successes_cons c cs :
  recorded_successes (c :: cs) = recorded_successes [c] ++ recorded_successes cs.
Proof. by destruct c as [|i o k [|]|]. Qed.

Lemma recorded_failures_cons c cs :
  recorded_failures (c :: cs) = recorded_failures [c] ++ recorded_failures cs.
Proof. by destruct c as [|i o k [|]|]. Qed.

Lemma Zsum_app l1 l2 : Zsum (l1 ++ l2) = Zsum l1 + Zsum l2.
Proof. unfold Zsum. induction l1 as [|x l1 IH]; simpl; lia. Qed.

Lemma run_counters (cs : list Call) (k : string) : ∀ m,
  counter calls k (after (run cs) m) =
    (λ n, n + Z.of_nat (length (for_component k (recorded_successes cs))))
      <$> counter calls k m ∧
  counter tokens k (after (run cs) m) =
    (λ n, n + Zsum (map (λ p, p.1.1 + p.1.2) (for_component k (recorded_successes cs))))
      <$> counter tokens k m ∧
  counter errors k (after (run cs) m) =
    (λ n, n + Z.of_nat (length (List.filter (λ f, bool_decide (f = k))
                                            (recorded_failures cs))))
      <$> counter errors k m.
Proof.
  induction cs as [|c cs IH]; intros m.
  - unfold after. simpl. by rewrite !fmap_add_0.
  - rewrite after_run_cons.
    destruct (IH (after (perform c) m)) as (H1 & H2 & H3).
    destruct (perform_counters c m k) as (P1 & P2 & P3).
    rewrite H1, H2, H3, P1, P2, P3, !fmap_add_add.
    rewrite (recorded_successes_cons c cs), (recorded_failures_cons c cs).
    unfold for_component.
    rewrite !List.filter_app, !map_app, !Zsum_app, !length_app, !Nat2Z.inj_add.
    done.
Qed.

(** X10. After any sequence of calls, from any state, the counters of a
    component that has an entry have grown by its records: [calls] by the
    number of successful records under its name, [tokens] by the sum of
    their [input_tokens + output_tokens], [errors] by the number of failed
    records under its name; a component without entry still has none. *)
Theorem breakdown_counts_records (cs : list Call) (m : Machine) (k : string) :
  ∃ m', run cs m = (Ok tt, m') ∧
    counter calls k m' =
      (λ n, n + Z.of_nat (length (for_component k (recorded_successes cs))))
        <$> counter calls k m ∧
    counter tokens k m' =
      (λ n, n + Zsum (map (λ p, p.1.1 + p.1.2) (for_component k (recorded_successes cs))))
        <$> counter tokens k m ∧
    counter errors k m' =
      (λ n, n + Z.of_nat (length (List.filter (λ f, bool_decide (f = k))
                                              (recorded_failures cs))))
        <$> counter errors k m.
Proof.
  eexists. split; [apply run_ok | apply run_counters].
Qed.

Lemma fresh_counter t0 js disk field k :
  counter field k (fresh t0 js disk) =
    if decide (k ∈ registered) then Some (field zero_stats) else None.
Proof.
  unfold counter, components, fresh. cbn [heap self component_usage].
  rewrite lookup_singleton_eq. simpl.
  case_decide as Hk.
  - unfold registered in Hk.
    repeat (apply elem_of_cons in Hk as [->|Hk]; [done|]).
    by apply elem_of_nil in Hk.
  - destruct (initial_components !! k) as [x|] eqn:E; [|done].
    exfalso. apply Hk. apply elem_of_list_to_map_2 in E.
    apply list_elem_of_fmap in E as (k' & [= -> _] & Hin). done.
Qed.

Lemma Zsum_map_add {A} (f g : A → Z) l :
  Zsum (map (λ x, f x + g x) l) = Zsum (map f l) + Zsum (map g l).
Proof. unfold Zsum. induction l as [|x l IH]; simpl; lia. Qed.

Lemma Zsum_indicator (x : string) (ks : list string) :
  NoDup ks →
  Zsum (map (λ k, if bool_decide (x = k) then 1 else 0) ks) =
    if bool_decide (x ∈ ks) then 1 else 0.
Proof.
  induction 1 as [|k ks Hk Hnd IH]; [done|].
  change (Zsum (map (λ k0, if bool_decide (x = k0) then 1 else 0) (k :: ks)))
    with ((if bool_decide (x = k) then 1 else 0) +
          Zsum (map (λ k0, if bool_decide (x = k0) then 1 else 0) ks)).
  rewrite IH.
  destruct (decide (x = k)) as [->|Hne].
  - rewrite bool_decide_eq_true_2 by done.
    rewrite (bool_decide_eq_false_2 (k ∈ ks)) by done.
    rewrite bool_decide_eq_true_2 by (by left). done.
  - rewrite (bool_decide_eq_false_2 (x = k)) by done.
    destruct (decide (x ∈ ks)) as [Hin|Hnin].
    + rewrite !bool_decide_eq_true_2; [done | by right | done].
    + rewrite !bool_decide_eq_false_2; [done | | done].
      intros Hin. apply elem_of_cons in Hin as [?|?]; done.
Qed.

Lemma for_component_length_cons k p ps :
  Z.of_nat (length (for_component k (p :: ps))) =
    (if bool_decide (p.2 = k) then 1 else 0) + Z.of_nat (length (for_component k ps)).
Proof.
  unfold for_component. simpl. destruct (bool_decide (p.2 = k)); simpl; lia.
Qed.

(** Every record falls under exactly one of the names [ks], or under none. *)
Lemma records_partition (ks : list string) (ps : list (Z * Z * string)) :
  NoDup ks →
  Zsum (map (λ k, Z.of_nat (length (for_component k ps))) ks) +
  Z.of_nat (length (List.filter (λ p, bool_decide (p.2 ∉ ks)) ps)) =
  Z.of_nat (length ps).
Proof.
  intros Hnd. induction ps as [|p ps IH]; simpl.
  - replace (map _ ks) with (map (λ _ : string, 0) ks) by done.
    assert (H0 : Zsum (map (λ _ : string, 0) ks) = 0).
    { clear. unfold Zsum. induction ks; simpl; lia. }
    lia.
  - rewrite (map_ext _ (λ k, (if bool_decide (p.2 = k) then 1 else 0) +
                             Z.of_nat (length (for_component k ps))))
      by (intros; apply for_component_length_cons).
    rewrite (Zsum_map_add (λ k, if bool_decide (p.2 = k) then 1 else 0)
                          (λ k, Z.of_nat (length (for_component k ps)))).
    rewrite (Zsum_indicator _ _ Hnd).
    destruct (decide (p.2 ∈ ks)) as [Hin|Hnin].
    + rewrite bool_decide_eq_true_2 by done.
      rewrite (bool_decide_eq_false_2 (p.2 ∉ ks)) by (by intros ?). lia.
    + rewrite bool_decide_eq_false_2 by done.
      rewrite (bool_decide_eq_true_2 (p.2 ∉ ks)) by done. simpl length. lia.
Qed.

Lemma registered_NoDup : NoDup registered.
Proof. apply (bool_decide_unpack _). vm_compute. exact I. Qed.

(** X11. After any sequence of calls on a fresh ledger, each registered
    component shows exactly the number of its successful records, no other
    name has an entry, and the [calls] of the five components plus the
    successful records made under unregistered names add up to
    [total_requests]. *)
Theorem breakdown_adds_up_to_total (t0 : Q) (js : list Q) (disk : bool) (cs : list Call) :
  ∃ m', run cs (fresh t0 js disk) = (Ok tt, m') ∧
    (∀ k, k ∈ registered →
       counter calls k m' =
         Some (Z.of_nat (length (for_component k (recorded_successes cs))))) ∧
    (∀ k, k ∉ registered → counter calls k m' = None) ∧
    Zsum (map (λ k, default 0 (counter calls k m')) registered) +
    Z.of_nat (length (List.filter (λ p, bool_decide (p.2 ∉ registered))
                                  (recorded_successes cs)))
    = total_requests (self m').
Proof.
  exists (after (run cs) (fresh t0 js disk)). split; [apply run_ok|].
  assert (Hc : ∀ k, counter calls k (after (run cs) (fresh t0 js disk)) =
    if decide (k ∈ registered)
    then Some (Z.of_nat (length (for_component k (recorded_successes cs))))
    else None).
  { intros k.
    destruct (run_counters cs k (fresh t0 js disk)) as (H1 & _).
    rewrite H1, fresh_counter. case_decide; [simpl; f_equal; lia | done]. }
  split; [intros k Hk; rewrite Hc; by rewrite decide_True|].
  split; [intros k Hk; rewrite Hc; by rewrite decide_False|].
  destruct (run_totals cs (fresh t0 js disk)) as (H1 & _). rewrite H1.
  change (total_requests (self (fresh t0 js disk))) with 0. rewrite Z.add_0_l.
  rewrite <- (records_partition registered (recorded_successes cs) registered_NoDup).
  f_equal. f_equal. apply map_ext_in. intros k Hk.
  rewrite Hc, decide_True; [done | by apply list_elem_of_In].
Qed.

(** ** The rate limit over the whole history *)

(** X12. [track_usage] and [get_usage_stats] never prune: over any
    sequence of calls without [track_request_start], [call_times] keeps its
    value and [token_times] keeps every event it had, however old, and
    gains one event per successful record, in order. *)
Theorem windows_pruned_only_by_admission (cs : list Call) (m : Machine) :
  Forall (λ c, is_admission c = false) cs →
  ∃ m' evs, run cs m = (Ok tt, m') ∧
    call_times (self m') = call_times (self m) ∧
    token_times (self m') = token_times (self m) ++ evs ∧
    map snd evs = map (λ p, p.1.1 + p.1.2) (recorded_successes cs).
Proof.
  intros Hcs. exists (after (run cs) m).
  revert m. induction Hcs as [|c cs Hc Hcs IH]; intros m.
  - exists []. split; [apply run_ok|]. unfold after. simpl. by rewrite app_nil_r.
  - destruct (IH (after (perform c) m)) as (evs & _ & H1 & H2 & H3).
    rewrite after_run_cons, H1, H2, perform_self.
    destruct c as [|i o k [|]|]; [done| | |].
    + exists ((clock (tick m), i + o) :: evs).
      split; [rewrite <- after_run_cons; apply run_ok|].
      rewrite recorded_self_success. simpl. rewrite <- app_assoc.
      split; [done|]. split; [done|]. by rewrite H3.
    + exists evs. split; [rewrite <- after_run_cons; apply run_ok | done].
    + exists evs. split; [rewrite <- after_run_cons; apply run_ok | done].
Qed.

(** Three records and two queries on a fresh ledger. *)
Lemma windows_pruned_only_by_admission_witness :
  ∃ m' evs,
    run [TrackUsage 5 7 "collector" true; GetUsageStats;
         TrackUsage 1 1 "nobody" false; TrackUsage 2 3 "dspy" true; GetUsageStats]
        (fresh 0 [100%Q; 100%Q; 100%Q] true) = (Ok tt, m') ∧
    call_times (self m') = call_times (self (fresh 0 [100%Q; 100%Q; 100%Q] true)) ∧
    token_times (self m') = token_times (self (fresh 0 [100%Q; 100%Q; 100%Q] true)) ++ evs ∧
    map snd evs =
      map (λ p, p.1.1 + p.1.2)
        (recorded_successes
           [TrackUsage 5 7 "collector" true; GetUsageStats;
            TrackUsage 1 1 "nobody" false; TrackUsage 2 3 "dspy" true; GetUsageStats]).
Proof.
  apply (windows_pruned_only_by_admission
           [TrackUsage 5 7 "collector" true; GetUsageStats;
            TrackUsage 1 1 "nobody" false; TrackUsage 2 3 "dspy" true; GetUsageStats]
           (fresh 0 [100%Q; 100%Q; 100%Q] true)).
  repeat constructor.
Defined.

Lemma prune_calls_suffix now l :
  ascending l →
  ∃ d, l = d ++ prune_calls now l ∧ Forall (λ t, (60 <= now - t)%Q) d.
Proof.
  induction l as [|t l IH]; intros Hl; [by exists []|].
  destruct Hl as [Ht Hl].
  destruct (young now t) eqn:E.
  - exists []. split; [|done]. rewrite app_nil_l. symmetry. apply prune_calls_all.
    apply young_lt in E. constructor; [done|].
    eapply Forall_impl; [exact Ht|]. simpl. intros u Hu. lra.
  - destruct (IH Hl) as (d & Hd & Hold). exists (t :: d). split.
    + unfold prune_calls in *. simpl. rewrite E. simpl. by f_equal.
    + constructor; [by apply young_ge | done].
Qed.

Lemma other_call_history c m h :
  is_admission c = false → ledger_of_history m h →
  ledger_of_history (after (perform c) m) h.
Proof.
  intros Hc [Htl Hb (old & Hh & Hold) Hsp].
  split; [by apply perform_timeline | by apply perform_window_bounded | | done].
  exists old. split.
  - rewrite Hh. f_equal. rewrite perform_self.
    destruct c as [|i o k [|]|]; [done| | |]; try done.
    by rewrite recorded_self_success.
  - pose proof (perform_clock c m (tl_clock _ Htl)).
    eapply Forall_impl; [exact Hold|]. simpl. intros; lra.
Qed.

Lemma admission_history m h :
  ledger_of_history m h →
  ledger_of_history (after (perform TrackRequestStart) m)
                    (h ++ [clock (after (perform TrackRequestStart) m)]).
Proof.
  intros [Htl Hb (old & Hh & Hold) Hsp].
  pose proof (tl_clock _ Htl) as Hm.
  pose proof (perform_clock TrackRequestStart m Hm) as Hclk.
  pose proof (perform_self TrackRequestStart m) as Hs.
  simpl perform in *. cbv zeta in Hs.
  destruct (check_rate_limit_after m) as (now & ds & E & C).
  set (m1 := after check_rate_limit m) in *.
  set (m' := after track_request_start m) in *.
  assert (Hfin : clock m' = clock (tick m1)).
  { unfold m', after.
    destruct (track_request_start_spec m) as (? & ? & m1' & E' & _ & ->).
    unfold m1, after. by rewrite E'. }
  assert (Hm1 : monotone m1).
  { unfold monotone. destruct (ck_jitter _ _ _ _ C) as [j ->]. by apply Forall_drop. }
  destruct (monotone_tick m1 Hm1) as [_ H1].
  destruct (ck_clock _ _ _ _ C Hm) as [H2 H3].
  pose proof (checked_bound _ _ _ _ C Hb) as Hlen.
  assert (Hc1 : call_times (self m1) =
    prune_calls now (prune_calls (clock (tick m)) (call_times (self m))))
    by (by rewrite (ck_self _ _ _ _ C)).
  destruct (prune_calls_suffix (clock (tick m)) (call_times (self m)) (tl_calls _ Htl))
    as (d0 & Hd0 & Hold0).
  destruct (prune_calls_suffix now (prune_calls (clock (tick m)) (call_times (self m)))
              (ascending_filter _ _ (tl_calls _ Htl)))
    as (d1 & Hd1 & Hold1).
  rewrite <- Hc1 in Hd1.
  assert (Hh' : h = (old ++ d0 ++ d1) ++ call_times (self m1)).
  { rewrite Hh, Hd0 at 1. rewrite Hd1 at 1. by rewrite <- !app_assoc. }
  assert (Hold' : Forall (λ t, (t + 60 <= clock m')%Q) (old ++ d0 ++ d1)).
  { rewrite Hfin. repeat (apply Forall_app; split).
    - eapply Forall_impl; [exact Hold|]. simpl. intros. rewrite Hfin in Hclk. lra.
    - eapply Forall_impl; [exact Hold0|]. simpl. intros; lra.
    - eapply Forall_impl; [exact Hold1|]. simpl. intros; lra. }
  split.
  - by apply (perform_timeline TrackRequestStart).
  - by apply (perform_window_bounded TrackRequestStart).
  - exists (old ++ d0 ++ d1). split; [|done].
    fold m'. rewrite Hs. simpl. rewrite <- Hfin, Hh' at 1. by rewrite <- app_assoc.
  - intros i a b Ha Hb'.
    destruct (decide (i + 15 < length h)%nat) as [Hlt|Hge].
    + rewrite lookup_app_l in Ha by lia. rewrite lookup_app_l in Hb' by lia.
      by apply (Hsp i a b).
    + assert (Hi : (i + 15 = length h)%nat).
      { apply lookup_lt_Some in Hb'. rewrite length_app in Hb'. simpl in Hb'. lia. }
      rewrite lookup_app_r in Hb' by lia.
      replace (i + 15 - length h)%nat with 0%nat in Hb' by lia.
      injection Hb' as <-.
      rewrite lookup_app_l in Ha by lia.
      assert (Hlh : length h = (length (old ++ d0 ++ d1) + length (call_times (self m1)))%nat).
      { rewrite Hh' at 1. by rewrite length_app. }
      rewrite Hh' in Ha. unfold rpm_limit in Hlen.
      rewrite lookup_app_l in Ha by lia.
      apply list_elem_of_lookup_2 in Ha.
      by apply (proj1 (Forall_forall _ _) Hold' a).
Qed.

Lemma last_admission m :
  last (call_times (self (after (perform TrackRequestStart) m))) =
    Some (clock (after (perform TrackRequestStart) m)).
Proof.
  rewrite perform_self. cbv zeta. simpl. rewrite last_snoc. f_equal.
  unfold after at 2. simpl perform.
  destruct (track_request_start_spec m) as (? & ? & m1' & E' & _ & ->).
  unfold after. by rewrite E'.
Qed.

Lemma history_stays_spaced cs : ∀ m h,
  ledger_of_history m h → spaced (h ++ admission_times cs m).
Proof.
  induction cs as [|c cs IH]; intros m h Hh.
  - simpl. rewrite app_nil_r. apply Hh.
  - simpl. destruct (is_admission c) eqn:Ec.
    + destruct c; try done. rewrite last_admission.
      cbn [option_list]. rewrite app_assoc. apply IH.
      by apply admission_history.
    + simpl. apply IH. by apply other_call_history.
Qed.

(** X8. The rate limit over the whole history: from a fresh ledger on a
    clock that does not run backwards, whatever calls are made, any two
    timestamps appended by [track_request_start] that are fifteen
    admissions apart are at least 60 s apart, so no interval shorter than
    60 s sees sixteen admissions. *)
Theorem sixteen_admissions_span_a_minute
    (t0 : Q) (js : list Q) (disk : bool) (cs : list Call) (i : nat) (a b : Q) :
  Forall forward_delay js →
  admission_times cs (fresh t0 js disk) !! i = Some a →
  admission_times cs (fresh t0 js disk) !! (i + 15)%nat = Some b →
  (a + 60 <= b)%Q.
Proof.
  intros Hjs. apply (history_stays_spaced cs (fresh t0 js disk) []).
  split.
  - by apply fresh_timeline.
  - split; [exact Hjs | done].
  - by exists [].
  - intros ? ? ? H. done.
Qed.

(** Sixteen admissions in a row on a clock standing still at 0: the first
    at time 0, the sixteenth at time 61. *)
Lemma sixteen_admissions_span_a_minute_witness : (0 + 60 <= 61)%Q.
Proof.
  apply (sixteen_admissions_span_a_minute 0 [] true
           (replicate 16 TrackRequestStart) 0 0 61).
  - constructor.
  - vm_compute. reflexivity.
  - vm_compute. reflexivity.
Defined.

(** ** Persistence *)





Lemma same_ledger_iff m1 m2 :
  same_ledger m1 m2 ↔
  self m1 = self m2 ∧ heap m1 = heap m2 ∧ clock m1 = clock m2 ∧ jitter m1 = jitter m2.
Proof.
  unfold same_ledger, ledger_part. split.
  - intros H. by injection H.
  - by intros (-> & -> & -> & ->).
Qed.

Lemma same_ledger_tick m1 m2 : same_ledger m1 m2 → same_ledger (tick m1) (tick m2).
Proof.
  rewrite !same_ledger_iff. intros (Hs & Hh & Hc & Hj). unfold tick.
  rewrite Hj. destruct (jitter m2) eqn:E; simpl; repeat split; congruence.
Qed.

Lemma same_ledger_iter_tick k : ∀ m1 m2,
  same_ledger m1 m2 → same_ledger (Nat.iter k tick m1) (Nat.iter k tick m2).
Proof.
  induction k as [|k IH]; intros m1 m2 H; [done|].
  simpl. by apply same_ledger_tick, IH.
Qed.

Lemma same_ledger_with_self f m1 m2 :
  same_ledger m1 m2 → same_ledger (with_self f m1) (with_self f m2).
Proof.
  rewrite !same_ledger_iff. intros (Hs & Hh & Hc & Hj). simpl.
  repeat split; congruence.
Qed.

Lemma same_ledger_with_heap f m1 m2 :
  same_ledger m1 m2 → same_ledger (with_heap f m1) (with_heap f m2).
Proof.
  rewrite !same_ledger_iff. intros (Hs & Hh & Hc & Hj). simpl.
  repeat split; congruence.
Qed.

Lemma same_ledger_slept d m1 m2 :
  same_ledger m1 m2 → same_ledger (slept d m1) (slept d m2).
Proof.
  rewrite !same_ledger_iff. intros (Hs & Hh & Hc & Hj). simpl.
  repeat split; congruence.
Qed.

Lemma same_ledger_token_checked now m1 m2 :
  same_ledger m1 m2 → same_ledger (token_checked now m1) (token_checked now m2).
Proof.
  intros H. unfold token_checked. cbv zeta.
  set (g := λ s, set_token_times (prune_tokens now (token_times s)) s).
  pose proof (same_ledger_with_self g _ _ H) as Hw.
  pose proof (proj1 (same_ledger_iff _ _) Hw) as (Hs & _).
  rewrite Hs. destruct (Qle_bool _ _); [by apply same_ledger_slept | done].
Qed.

Lemma same_ledger_request_checked now m1 m2 :
  same_ledger m1 m2 →
  fst (request_checked now m1) = fst (request_checked now m2) ∧
  same_ledger (snd (request_checked now m1)) (snd (request_checked now m2)).
Proof.
  intros H. pose proof (proj1 (same_ledger_iff _ _) H) as (Hs & _).
  unfold request_checked. rewrite Hs.
  destruct (rpm_limit <=? _); [|done].
  destruct (call_times (self m2)) as [|c0 rest]; [done|].
  destruct (Qltb 0 _); [|done]. cbv zeta.
  pose proof (same_ledger_tick _ _ (same_ledger_slept (60 - (now - c0) + 1) _ _ H)) as Ht.
  pose proof (proj1 (same_ledger_iff _ _) Ht) as (_ & _ & Hc & _).
  simpl. rewrite Hc. split; [done|]. by apply same_ledger_with_self.
Qed.

Lemma same_ledger_admitted m1 m2 :
  same_ledger m1 m2 → same_ledger (admitted m1) (admitted m2).
Proof.
  intros H. unfold admitted. cbv zeta.
  assert (Hr : same_ledger (rate_checked m1) (rate_checked m2)).
  { unfold rate_checked. cbv zeta.
    pose proof (same_ledger_tick _ _ H) as Ht.
    pose proof (proj1 (same_ledger_iff _ _) Ht) as (_ & _ & Hc & _).
    rewrite Hc.
    set (g := λ s, set_call_times (prune_calls (clock (tick m2)) (call_times s)) s).
    destruct (same_ledger_request_checked (clock (tick m2)) _ _
                (same_ledger_with_self g _ _ Ht)) as [Hf Hsnd].
    rewrite Hf. by apply same_ledger_token_checked. }
  pose proof (same_ledger_tick _ _ Hr) as Ht.
  pose proof (proj1 (same_ledger_iff _ _) Ht) as (_ & _ & Hc & _).
  rewrite Hc. by apply same_ledger_with_self.
Qed.

Lemma same_ledger_recorded i o c ok m1 m2 :
  same_ledger m1 m2 → same_ledger (recorded i o c ok m1) (recorded i o c ok m2).
Proof.
  intros H. pose proof (proj1 (same_ledger_iff _ _) H) as (Hs & _).
  unfold recorded. destruct ok.
  - cbv zeta.
    set (g := λ s, set_totals (total_requests s + 1) (total_tokens s + (i + o))
                     (total_input_tokens s + i) (total_output_tokens s + o) s).
    pose proof (same_ledger_tick _ _ (same_ledger_with_self g _ _ H)) as Ht.
    pose proof (proj1 (same_ledger_iff _ _) Ht) as (Hs' & _ & Hc & _).
    rewrite Hc. simpl. rewrite Hs'.
    by apply same_ledger_with_heap, same_ledger_with_self.
  - rewrite Hs. by apply same_ledger_with_heap.
Qed.

Lemma same_ledger_saved m : same_ledger (saved m) (Nat.iter (length (call_times (self m))) tick (tick m)).
Proof.
  unfold saved. cbv zeta. rewrite tick_self.
  apply same_ledger_iff. by destruct (disk_ok _).
Qed.

Lemma same_ledger_trans m1 m2 m3 :
  same_ledger m1 m2 → same_ledger m2 m3 → same_ledger m1 m3.
Proof. unfold same_ledger. congruence. Qed.

Lemma same_ledger_sym m1 m2 : same_ledger m1 m2 → same_ledger m2 m1.
Proof. unfold same_ledger. congruence. Qed.

Lemma same_ledger_perform c m1 m2 :
  same_ledger m1 m2 → same_ledger (after (perform c) m1) (after (perform c) m2).
Proof.
  intros H. pose proof (proj1 (same_ledger_iff _ _) H) as (Hs & _).
  unfold after. destruct c as [|i o k ok|]; simpl perform.
  - rewrite !track_request_start_eq. simpl. by apply same_ledger_admitted.
  - rewrite !track_usage_eq. cbn [snd].
    pose proof (same_ledger_recorded i o k ok _ _ H) as Hr.
    pose proof (proj1 (same_ledger_iff _ _) Hr) as (Hs' & _).
    rewrite Hs'. destruct (_ =? 0); [|done].
    eapply same_ledger_trans; [apply same_ledger_saved|].
    eapply same_ledger_trans; [|apply same_ledger_sym, same_ledger_saved].
    rewrite Hs'. by apply same_ledger_iter_tick, same_ledger_tick.
  - unfold_M. rewrite !get_usage_stats_spec. simpl. rewrite Hs.
    by apply same_ledger_iter_tick.
Qed.

(** X14. The accounting does not depend on the persistence: two runs of
    the same calls on machines that agree on the attributes, the heap and
    the clock, whatever their disks, files and traces, both return normally
    and end with the same attributes, heap and clock. *)
Theorem accounting_independent_of_disk (cs : list Call) (m1 m2 : Machine) :
  same_ledger m1 m2 →
  ∃ m1' m2', run cs m1 = (Ok tt, m1') ∧ run cs m2 = (Ok tt, m2') ∧
    self m1' = self m2' ∧ heap m1' = heap m2' ∧ clock m1' = clock m2'.
Proof.
  intros H. exists (after (run cs) m1), (after (run cs) m2).
  split; [apply run_ok|]. split; [apply run_ok|].
  assert (Hs : same_ledger (after (run cs) m1) (after (run cs) m2)).
  { revert m1 m2 H. induction cs as [|c cs IH]; intros m1 m2 H; [done|].
    rewrite !after_run_cons. by apply IH, same_ledger_perform. }
  apply same_ledger_iff in Hs as (? & ? & ? & _). done.
Qed.

(** Ten records on a working disk and on a failing one. *)
Lemma accounting_independent_of_disk_witness :
  ∃ m1' m2',
    run (replicate 10 (TrackUsage 3 4 "dspy" true)) (fresh 0 [] true) = (Ok tt, m1') ∧
    run (replicate 10 (TrackUsage 3 4 "dspy" true)) (fresh 0 [] false) = (Ok tt, m2') ∧
    self m1' = self m2' ∧ heap m1' = heap m2' ∧ clock m1' = clock m2'.
Proof.
  apply (accounting_independent_of_disk
           (replicate 10 (TrackUsage 3 4 "dspy" true))
           (fresh 0 [] true) (fresh 0 [] false)).
  reflexivity.
Defined.

